(** * @skapxd/result: the [Result] helpers and [trySafe]

    A shallow embedding of [src/result/index.ts] and of the two versions of
    [src/try-safe/index.ts] (the exported one and the earlier one that
    normalises raised values into [Error] instances).

    The TypeScript code allocates object literals, compares nothing by
    identity itself, but hands the caller back the very references it was
    given; [trySafe] also chains two reactions on a promise.  The model
    therefore keeps an explicit heap of objects addressed by location, and
    the micro-task queue of the promise machinery:

    - a JavaScript value is a primitive or a reference into the heap;
    - a computation is a state transformer that ends normally or abruptly
      (a [throw]), written in a small state-and-exception monad;
    - [then]/[catch] register reactions on a promise or enqueue a job, and
      the event loop runs the queued jobs one at a time.

    Numbers are restricted to integers, symbols and bigints are left out, and
    only own data properties of plain objects are modelled (no prototypes
    of the program, getters or proxies).  The functions of the program other
    than the callbacks of [trySafe] have no body in the model: where the
    language would call one (a [toString] method during [String(e)]), the
    computation is marked as leaving the model instead of being given a
    made-up result. *)

From Stdlib Require Import ZArith String DecimalString.
From stdpp Require Import base list strings relations.

Open Scope string_scope.

(** ** Values and objects *)

(** Locations are indices into the heap. *)
Abbreviation loc := nat.

Inductive val : Type :=
| VUndefined
| VNull
| VBool (b : bool)
| VNumber (n : Z)
| VString (s : string)
| VRef (l : loc).

(** The functions that the promise machinery may have to call back.  The
    closures of the program are defunctionalised: each constructor stands for
    one arrow function of the source (or for one of the two default reactions
    that [then] installs when a callback is missing). *)
Inductive handler : Type :=
| HIdentity            (* default onFulfilled: x => x *)
| HThrower             (* default onRejected: e => { throw e } *)
| HWrapOk              (* (value) => ({ ok: true, value }) *)
| HWrapErr             (* (error) => ({ ok: false, error }) *)
| HWrapErrNormalized.  (* (e) => ({ ok: false,
                                    error: e instanceof Error ? e : new Error(String(e)) }) *)

(** A promise reaction: the callback and the derived promise it settles. *)
Record reaction : Type := Reaction { handler_of : handler; capability : loc }.

Inductive pstate : Type :=
| Pending (fulfillReactions rejectReactions : list reaction)
| Fulfilled (v : val)
| Rejected (r : val).

Inductive object : Type :=
| OPlain (props : list (string * val))   (* object literal *)
| OFunction                              (* a callable, body not modelled *)
| OError (message : string)              (* instance of Error *)
| OPromise (st : pstate).                (* instance of Promise *)

Record job : Type := Job { job_reaction : reaction; job_argument : val }.

Record state : Type := State { heap : list object; queue : list job }.

#[global] Instance val_eq_dec : EqDecision val.
Proof. solve_decision. Defined.
#[global] Instance handler_eq_dec : EqDecision handler.
Proof. solve_decision. Defined.
#[global] Instance reaction_eq_dec : EqDecision reaction.
Proof. solve_decision. Defined.
#[global] Instance job_eq_dec : EqDecision job.
Proof. solve_decision. Defined.

(** ** Computations: state passing with abrupt completion *)

Inductive completion (A : Type) : Type :=
| Normal (a : A)
| Throw (e : val).
Arguments Normal {A} a.
Arguments Throw {A} e.

Definition M (A : Type) : Type := state → completion A * state.

Definition ret {A} (a : A) : M A := λ s, (Normal a, s).

Definition bind {A B} (m : M A) (k : A → M B) : M B :=
  λ s, match m s with
       | (Normal a, s') => k a s'
       | (Throw e, s') => (Throw e, s')
       end.

Definition throw {A} (e : val) : M A := λ s, (Throw e, s).

(** [try { body } catch (e) { handle e }] *)
Definition try_catch {A} (body : M A) (handle : val → M A) : M A :=
  λ s, match body s with
       | (Normal a, s') => (Normal a, s')
       | (Throw e, s') => handle e s'
       end.

Notation "'let!' x ':=' m 'in' k" := (bind m (λ x, k))
  (at level 10, x name, m at level 100, k at level 200, only parsing).

Definition get_heap : M (list object) := λ s, (Normal (heap s), s).

(** Allocation appends to the heap: the new object lives at a location that
    no existing reference names. *)
Definition alloc_loc (o : object) : M loc :=
  λ s, (Normal (length (heap s)), State (heap s ++ [o]) (queue s)).

Definition alloc (o : object) : M val :=
  let! l := alloc_loc o in ret (VRef l).

Definition update (l : loc) (o : object) : M unit :=
  λ s, (Normal tt, State (<[l := o]> (heap s)) (queue s)).

Definition enqueue (j : job) : M unit :=
  λ s, (Normal tt, State (heap s) (queue s ++ [j])).

Definition object_literal (props : list (string * val)) : M val :=
  alloc (OPlain props).

Definition new_Error (message : string) : M val := alloc (OError message).

(** ** Primitive operations of the language *)

Fixpoint lookup_prop (k : string) (props : list (string * val)) : option val :=
  match props with
  | [] => None
  | (k', v) :: rest => if String.eqb k k' then Some v else lookup_prop k rest
  end.

(** [ToBoolean] *)
Definition to_boolean (v : val) : bool :=
  match v with
  | VUndefined | VNull => false
  | VBool b => b
  | VNumber n => negb (n =? 0)%Z
  | VString s => negb (String.eqb s EmptyString)
  | VRef _ => true
  end.

Definition instanceof_Error (h : list object) (v : val) : bool :=
  match v with
  | VRef l => match h !! l with Some (OError _) => true | _ => false end
  | _ => false
  end.

Definition instanceof_Promise (h : list object) (v : val) : bool :=
  match v with
  | VRef l => match h !! l with Some (OPromise _) => true | _ => false end
  | _ => false
  end.

Definition is_callable (h : list object) (v : val) : bool :=
  match v with
  | VRef l => match h !! l with Some OFunction => true | _ => false end
  | _ => false
  end.

(** A value is awaitable (a thenable) when it is an object whose [then]
    property is callable: every promise, and every plain object that carries
    a [then] method. *)
Definition is_thenable (h : list object) (v : val) : bool :=
  match v with
  | VRef l =>
      match h !! l with
      | Some (OPromise _) => true
      | Some (OPlain props) =>
          match lookup_prop "then" props with
          | Some f => is_callable h f
          | None => false
          end
      | _ => false
      end
  | _ => false
  end.

(** [String(v)] can end in three ways: with a string; abruptly, with a
    [TypeError]; or by running code that the model does not have. *)
Inductive conversion : Type :=
| Converted (s : string)
| ConversionThrows
| NotModelled.

(** [String(v)], that is [ToString(v)] since the model has no symbols.

    An object is first converted to a primitive (OrdinaryToPrimitive with
    hint string): its [toString] is called if it is callable, else its
    [valueOf] if that is callable, and a [TypeError] is thrown when neither
    call gives a primitive.  A property that the object does not own is
    inherited from [Object.prototype]: the inherited [toString] gives
    ["[object Object]"] (["[object Promise]"] for a promise, by its
    [Symbol.toStringTag]), and the inherited [valueOf] gives the object
    itself, which is no primitive.

    Left out of the model, and answered [NotModelled]: an own [toString] or
    [valueOf] that is callable (a method of the program, whose body the
    model does not have), the source text that a function converts to, the
    [name] that prefixes the text of an [Error], and the digits of a number
    outside the safe integers. *)
Definition to_string (h : list object) (v : val) : conversion :=
  match v with
  | VUndefined => Converted "undefined"
  | VNull => Converted "null"
  | VBool true => Converted "true"
  | VBool false => Converted "false"
  | VNumber n =>
      if (Z.abs n <? 2 ^ 53)%Z then Converted (NilZero.string_of_int (Z.to_int n))
      else NotModelled
  | VString s => Converted s
  | VRef l =>
      match h !! l with
      | Some (OPlain props) =>
          match lookup_prop "toString" props with
          | None => Converted "[object Object]"
          | Some f =>
              if is_callable h f then NotModelled
              else match lookup_prop "valueOf" props with
                   | None => ConversionThrows
                   | Some g => if is_callable h g then NotModelled else ConversionThrows
                   end
          end
      | Some (OPromise _) => Converted "[object Promise]"
      | Some OFunction | Some (OError _) | None => NotModelled
      end
  end.

(** Property read [v.k].  Reading a property of [undefined] or [null] throws
    a [TypeError]; a missing property reads as [undefined]. *)
Definition get_prop (v : val) (k : string) : M val :=
  match v with
  | VUndefined | VNull =>
      let! e := new_Error ("Cannot read properties of "
                           ++ match v with VNull => "null" | _ => "undefined" end) in
      throw e
  | VRef l =>
      let! h := get_heap in
      match h !! l with
      | Some (OPlain props) => ret (default VUndefined (lookup_prop k props))
      | Some (OError m) => ret (if String.eqb k "message" then VString m else VUndefined)
      | _ => ret VUndefined
      end
  | _ => ret VUndefined
  end.

(** ** src/result/index.ts *)

Module Result.

(** [ok: <T>(value: T): Ok<T> => ({ ok: true, value })] *)
Definition ok (value : val) : M val :=
  object_literal [("ok", VBool true); ("value", value)].

(** [err: <E>(error: E): Err<E> => ({ ok: false, error })] *)
Definition err (error : val) : M val :=
  object_literal [("ok", VBool false); ("error", error)].

(** [isOk: (result) => result.ok] *)
Definition isOk (result : val) : M val :=
  get_prop result "ok".

(** [isErr: (result) => !result.ok] *)
Definition isErr (result : val) : M val :=
  let! flag := get_prop result "ok" in
  ret (VBool (negb (to_boolean flag))).

(** [unwrapOr: (result, defaultValue) => result.ok ? result.value : defaultValue] *)
Definition unwrapOr (result defaultValue : val) : M val :=
  let! flag := get_prop result "ok" in
  if to_boolean flag then get_prop result "value" else ret defaultValue.

End Result.

(** The TypeScript types [Ok<T>], [Err<E>] and [Result<T, E>], read as
    predicates on a value in a heap: a reference to a plain object whose [ok]
    property is the literal [true] (resp. [false]) and which has the payload
    property. *)
Definition is_Ok (h : list object) (v : val) : bool :=
  match v with
  | VRef l =>
      match h !! l with
      | Some (OPlain props) =>
          match lookup_prop "ok" props, lookup_prop "value" props with
          | Some (VBool true), Some _ => true
          | _, _ => false
          end
      | _ => false
      end
  | _ => false
  end.

Definition is_Err (h : list object) (v : val) : bool :=
  match v with
  | VRef l =>
      match h !! l with
      | Some (OPlain props) =>
          match lookup_prop "ok" props, lookup_prop "error" props with
          | Some (VBool false), Some _ => true
          | _, _ => false
          end
      | _ => false
      end
  | _ => false
  end.

Definition is_Result (h : list object) (v : val) : bool :=
  is_Ok h v || is_Err h v.

(** ** Promises *)

(** [promise.then(onFulfilled, onRejected)] on an instance of [Promise]
    (PerformPromiseThen): a new pending promise is derived; the pair of
    reactions is registered on a pending source, and a job is queued at once
    when the source has already settled.  The program only calls [then] and
    [catch] behind [instanceof Promise]; on any other receiver the model
    raises a [TypeError]. *)
Definition promise_then (promise : val) (onFulfilled onRejected : option handler) : M val :=
  let! h := get_heap in
  match promise with
  | VRef p =>
      match h !! p with
      | Some (OPromise st) =>
          let! d := alloc_loc (OPromise (Pending [] [])) in
          let fulfillReaction := Reaction (default HIdentity onFulfilled) d in
          let rejectReaction := Reaction (default HThrower onRejected) d in
          let! _ :=
            match st with
            | Pending frs rrs =>
                update p (OPromise (Pending (frs ++ [fulfillReaction]) (rrs ++ [rejectReaction])))
            | Fulfilled v => enqueue (Job fulfillReaction v)
            | Rejected r => enqueue (Job rejectReaction r)
            end in
          ret (VRef d)
      | _ => let! e := new_Error "then is not a function" in throw e
      end
  | _ => let! e := new_Error "then is not a function" in throw e
  end.

(** [promise.catch(onRejected)] is [promise.then(undefined, onRejected)]. *)
Definition promise_catch (promise : val) (onRejected : handler) : M val :=
  promise_then promise None (Some onRejected).

(** FulfillPromise / RejectPromise: only a pending promise changes, and its
    reactions of the matching kind become jobs, in registration order. *)
Definition fulfill_promise (p : loc) (v : val) (s : state) : state :=
  match heap s !! p with
  | Some (OPromise (Pending frs _)) =>
      State (<[p := OPromise (Fulfilled v)]> (heap s))
            (queue s ++ map (λ rx, Job rx v) frs)
  | _ => s
  end.

Definition reject_promise (p : loc) (r : val) (s : state) : state :=
  match heap s !! p with
  | Some (OPromise (Pending _ rrs)) =>
      State (<[p := OPromise (Rejected r)]> (heap s))
            (queue s ++ map (λ rx, Job rx r) rrs)
  | _ => s
  end.

(** The resolve function of a promise.  A resolution that is not a thenable
    fulfils the promise.  A thenable resolution locks the promise to it: the
    adoption is not modelled, the promise stays pending and whatever settles
    it later appears as a settlement by the host (see [step]). *)
Definition resolve_promise (p : loc) (x : val) (s : state) : state :=
  if is_thenable (heap s) x then s else fulfill_promise p x s.

(** Computations that may leave the model: [None] when the call would run
    code that the model does not have. *)
Definition P (A : Type) : Type := state → option (completion A * state).

Definition lift {A} (m : M A) : P A := λ s, Some (m s).

Definition pbind {A B} (m : P A) (k : A → P B) : P B :=
  λ s, match m s with
       | Some (Normal a, s') => k a s'
       | Some (Throw e, s') => Some (Throw e, s')
       | None => None
       end.

Definition p_try_catch {A} (body : P A) (handle : val → P A) : P A :=
  λ s, match body s with
       | Some (Normal a, s') => Some (Normal a, s')
       | Some (Throw e, s') => handle e s'
       | None => None
       end.

Notation "'let?' x ':=' m 'in' k" := (pbind m (λ x, k))
  (at level 10, x name, m at level 100, k at level 200, only parsing).

(** The call [String(v)]. *)
Definition String_call (v : val) : P string :=
  let? h := lift get_heap in
  match to_string h v with
  | Converted t => lift (ret t)
  | ConversionThrows =>
      lift (let! e := new_Error "Cannot convert object to primitive value" in throw e)
  | NotModelled => λ _, None
  end.

(** [e instanceof Error ? e : new Error(String(e))] *)
Definition normalize_error (e : val) : P val :=
  let? h := lift get_heap in
  if instanceof_Error h e then lift (ret e)
  else let? message := String_call e in lift (new_Error message).

(** The bodies of the callbacks. *)
Definition call_handler (hd : handler) (arg : val) : P val :=
  match hd with
  | HIdentity => lift (ret arg)
  | HThrower => lift (throw arg)
  | HWrapOk => lift (object_literal [("ok", VBool true); ("value", arg)])
  | HWrapErr => lift (object_literal [("ok", VBool false); ("error", arg)])
  | HWrapErrNormalized =>
      let? error := normalize_error arg in
      lift (object_literal [("ok", VBool false); ("error", error)])
  end.

(** PromiseReactionJob: call the handler, then resolve or reject the derived
    promise with what it returned or threw.  When the handler leaves the
    model, so does the settlement of the derived promise: it stays pending,
    and whatever settles it later appears as a settlement by the host (see
    [step]). *)
Definition run_job (j : job) (s : state) : state :=
  let rx := job_reaction j in
  match call_handler (handler_of rx) (job_argument j) s with
  | Some (Normal x, s') => resolve_promise (capability rx) x s'
  | Some (Throw e, s') => reject_promise (capability rx) e s'
  | None => s
  end.

(** One turn of the micro-task queue. *)
Definition run_next (s : state) : option state :=
  match queue s with
  | [] => None
  | j :: rest => Some (run_job j (State (heap s) rest))
  end.

(** Run queued jobs until the queue is empty, at most [fuel] of them. *)
Fixpoint drain (fuel : nat) (s : state) : state :=
  match fuel with
  | O => s
  | S n => match run_next s with
           | None => s
           | Some s' => drain n s'
           end
  end.

(** ** src/try-safe/index.ts (exported version) *)

Definition trySafe (fn : M val) : M val :=
  try_catch
    (let! result := fn in
     let! h := get_heap in
     if instanceof_Promise h result then
       let! chained := promise_then result (Some HWrapOk) None in
       promise_catch chained HWrapErr
     else
       object_literal [("ok", VBool true); ("value", result)])
    (λ error,
       object_literal [("ok", VBool false); ("error", error)]).

(** ** The earlier version of src/try-safe/index.ts *)

Module Historical.

(** The [catch] block and the [catch] callback convert the raised value
    with [String], which can itself throw: nothing catches that. *)
Definition trySafe (fn : M val) : P val :=
  p_try_catch
    (lift (let! result := fn in
           let! h := get_heap in
           if instanceof_Promise h result then
             let! chained := promise_then result (Some HWrapOk) None in
             promise_catch chained HWrapErrNormalized
           else
             object_literal [("ok", VBool true); ("value", result)]))
    (λ e,
       let? error := normalize_error e in
       lift (object_literal [("ok", VBool false); ("error", error)])).

End Historical.

(** ** The event loop and the host program *)

Definition reactions_of (o : object) : list reaction :=
  match o with
  | OPromise (Pending frs rrs) => frs ++ rrs
  | _ => []
  end.

(** A reference is well formed when it names an allocated object. *)
Definition value_wf (h : list object) (v : val) : Prop :=
  match v with
  | VRef l => l < length h
  | _ => True
  end.

Definition object_wf (h : list object) (o : object) : Prop :=
  match o with
  | OPromise (Pending frs rrs) => Forall (λ rx, capability rx < length h) (frs ++ rrs)
  | OPromise (Fulfilled v) | OPromise (Rejected v) => value_wf h v
  | _ => True
  end.

Definition job_wf (h : list object) (j : job) : Prop :=
  capability (job_reaction j) < length h ∧ value_wf h (job_argument j).

(** States that a run of a program can produce: reactions and jobs settle
    allocated promises, and settled promises and jobs hold allocated values. *)
Definition wf_state (s : state) : Prop :=
  Forall (object_wf (heap s)) (heap s) ∧ Forall (job_wf (heap s)) (queue s).

(** The resolving functions of a promise derived by [then] are held by the
    reaction that will settle it, and by nothing else: only a promise that no
    reaction and no job names can be settled from outside. *)
Definition unowned (s : state) (p : loc) : Prop :=
  Forall (λ o, Forall (λ rx, capability rx ≠ p) (reactions_of o)) (heap s) ∧
  Forall (λ j, capability (job_reaction j) ≠ p) (queue s).

Inductive host_object : object → Prop :=
| host_plain props : host_object (OPlain props)
| host_function : host_object OFunction
| host_error m : host_object (OError m)
| host_promise : host_object (OPromise (Pending [] [])).

(** What can happen after [trySafe] has returned: the event loop runs the
    next job, or the surrounding program settles one of its own promises,
    chains a reaction on any promise, or allocates an object. *)
Inductive step : state → state → Prop :=
| step_job s s' :
    run_next s = Some s' → step s s'
| step_fulfill s p v :
    unowned s p → value_wf (heap s) v → is_thenable (heap s) v = false →
    step s (fulfill_promise p v s)
| step_reject s p r :
    unowned s p → value_wf (heap s) r →
    step s (reject_promise p r s)
| step_then s p onFulfilled onRejected d s' :
    promise_then (VRef p) onFulfilled onRejected s = (Normal d, s') →
    step s s'
| step_alloc s o :
    host_object o → step s (State (heap s ++ [o]) (queue s)).

(** Number of jobs that are queued or may still be queued by a settlement. *)
Definition backlog (s : state) : nat :=
  length (queue s) + sum_list (map (λ o, length (reactions_of o)) (heap s)).

Definition promise_state (s : state) (p : loc) : option pstate :=
  match heap s !! p with
  | Some (OPromise st) => Some st
  | _ => None
  end.

(** ** The invariant of a chained reaction *)

Definition job_for (t : loc) (j : job) : Prop := capability (job_reaction j) = t.
Definition reaction_for (t : loc) (rx : reaction) : Prop := capability rx = t.

#[global] Instance job_for_dec t j : Decision (job_for t j).
Proof. unfold job_for. apply _. Defined.
#[global] Instance reaction_for_dec t rx : Decision (reaction_for t rx).
Proof. unfold reaction_for. apply _. Defined.

(** The settlement a handler of the program gives the derived promise. *)
Inductive outcome (h : list object) : handler → val → pstate → Prop :=
| outcome_identity v :
    outcome h HIdentity v (Fulfilled v)
| outcome_thrower r :
    outcome h HThrower r (Rejected r)
| outcome_ok v l :
    h !! l = Some (OPlain [("ok", VBool true); ("value", v)]) →
    outcome h HWrapOk v (Fulfilled (VRef l))
| outcome_err r l :
    h !! l = Some (OPlain [("ok", VBool false); ("error", r)]) →
    outcome h HWrapErr r (Fulfilled (VRef l)).

(** A plain object without a [then] property: never a thenable. *)
Definition plain_record (h : list object) (v : val) : Prop :=
  ∃ l props, v = VRef l ∧ h !! l = Some (OPlain props) ∧ lookup_prop "then" props = None.

(** What a queued job needs to know about its argument, for the handlers
    that the invariant follows. *)
Definition good_arg (h : list object) (hd : handler) (v : val) : Prop :=
  match hd with
  | HIdentity => plain_record h v
  | HThrower | HWrapOk | HWrapErr => value_wf h v
  | HWrapErrNormalized => False
  end.

(** The life of the promise [tgt] derived from [src] with the reactions
    [hf] and [hr]: waiting on a pending source, scheduled as a job once the
    source has settled, then settled by the handler. *)
Inductive edge (s : state) (src tgt : loc) (hf hr : handler) : Prop :=
| edge_waiting frs rrs tf tr :
    heap s !! src = Some (OPromise (Pending frs rrs)) →
    heap s !! tgt = Some (OPromise (Pending tf tr)) →
    filter (reaction_for tgt) frs = [Reaction hf tgt] →
    filter (reaction_for tgt) rrs = [Reaction hr tgt] →
    filter (job_for tgt) (queue s) = [] →
    edge s src tgt hf hr
| edge_queued_fulfilled v tf tr :
    heap s !! src = Some (OPromise (Fulfilled v)) →
    heap s !! tgt = Some (OPromise (Pending tf tr)) →
    filter (job_for tgt) (queue s) = [Job (Reaction hf tgt) v] →
    good_arg (heap s) hf v →
    edge s src tgt hf hr
| edge_queued_rejected r tf tr :
    heap s !! src = Some (OPromise (Rejected r)) →
    heap s !! tgt = Some (OPromise (Pending tf tr)) →
    filter (job_for tgt) (queue s) = [Job (Reaction hr tgt) r] →
    good_arg (heap s) hr r →
    edge s src tgt hf hr
| edge_done_fulfilled v st :
    heap s !! src = Some (OPromise (Fulfilled v)) →
    heap s !! tgt = Some (OPromise st) →
    outcome (heap s) hf v st →
    edge s src tgt hf hr
| edge_done_rejected r st :
    heap s !! src = Some (OPromise (Rejected r)) →
    heap s !! tgt = Some (OPromise st) →
    outcome (heap s) hr r st →
    edge s src tgt hf hr.

(** No promise other than [src] holds a reaction for [tgt]. *)
Definition exclusive (s : state) (src tgt : loc) : Prop :=
  ∀ q o, heap s !! q = Some o → q ≠ src →
         Forall (λ rx, capability rx ≠ tgt) (reactions_of o).

Definition link (s : state) (src tgt : loc) (hf hr : handler) : Prop :=
  src ≠ tgt ∧ exclusive s src tgt ∧ edge s src tgt hf hr.

(** The chain [source.then(wrapOk).catch(wrapErr)] that [trySafe] builds:
    [p] is the promise the callable returned, [p1] the promise derived by
    [then] and [p2] the one derived by [catch], which [trySafe] returns. *)
Definition chained (hr : handler) (p p1 p2 : loc) (s : state) : Prop :=
  wf_state s ∧ link s p p1 HWrapOk HThrower ∧ link s p1 p2 HIdentity hr.

(** How a heap may change while the program runs: objects stay where they
    are, a promise stays a promise (its state may change), and any other
    object is immutable. *)
Definition same_kind (o o' : object) : Prop :=
  match o with
  | OPromise _ => ∃ st, o' = OPromise st
  | _ => o' = o
  end.

Definition preserved (h h' : list object) : Prop :=
  ∀ l o, h !! l = Some o → ∃ o', h' !! l = Some o' ∧ same_kind o o'.

(** The source of a link keeps its reactions for the target. *)
Definition same_for (t : loc) (st st' : pstate) : Prop :=
  match st with
  | Pending frs rrs =>
      ∃ frs' rrs', st' = Pending frs' rrs' ∧
                   filter (reaction_for t) frs' = filter (reaction_for t) frs ∧
                   filter (reaction_for t) rrs' = filter (reaction_for t) rrs
  | _ => st' = st
  end.

(** The target of a link stays pending, or keeps its settled state. *)
Definition same_status (st st' : pstate) : Prop :=
  match st with
  | Pending _ _ => ∃ tf tr, st' = Pending tf tr
  | _ => st' = st
  end.

(** Objects that carry no reaction: everything but a pending promise with
    registered reactions. *)
Definition inert (o : object) : Prop := reactions_of o = [].

(** * Properties *)

Open Scope list_scope.
Open Scope nat_scope.

Arguments get_prop : simpl never.

(** ** Reading the heap *)

Lemma lookup_fresh (h : list object) (o : object) :
  (h ++ [o]) !! length h = Some o.
Proof. by apply list_lookup_middle. Qed.

Lemma lookup_old (h ext : list object) (l : loc) (o : object) :
  h !! l = Some o → (h ++ ext) !! l = Some o.
Proof. intros H. by apply lookup_app_l_Some. Qed.

Lemma get_prop_plain (s : state) (l : loc) (props : list (string * val)) (k : string) :
  heap s !! l = Some (OPlain props) →
  get_prop (VRef l) k s = (Normal (default VUndefined (lookup_prop k props)), s).
Proof. intros H. unfold get_prop, bind, get_heap. by rewrite H. Qed.

Lemma get_prop_fresh (h : list object) (q : list job)
    (props : list (string * val)) (k : string) :
  get_prop (VRef (length h)) k (State (h ++ [OPlain props]) q) =
  (Normal (default VUndefined (lookup_prop k props)), State (h ++ [OPlain props]) q).
Proof. apply get_prop_plain. apply lookup_fresh. Qed.

Lemma bind_Normal {A B} (m : M A) (k : A → M B) (s s' : state) (a : A) :
  m s = (Normal a, s') → bind m k s = k a s'.
Proof. intros H. unfold bind. by rewrite H. Qed.

Lemma bind_Throw {A B} (m : M A) (k : A → M B) (s s' : state) (e : val) :
  m s = (Throw e, s') → bind m k s = (Throw e, s').
Proof. intros H. unfold bind. by rewrite H. Qed.

Lemma object_literal_spec (props : list (string * val)) (s : state) :
  object_literal props s =
  (Normal (VRef (length (heap s))), State (heap s ++ [OPlain props]) (queue s)).
Proof. reflexivity. Qed.

Lemma is_Ok_inv (h : list object) (r : val) :
  is_Ok h r = true →
  ∃ l props v, r = VRef l ∧ h !! l = Some (OPlain props) ∧
               lookup_prop "ok" props = Some (VBool true) ∧
               lookup_prop "value" props = Some v.
Proof.
  unfold is_Ok. destruct r as [| | | | |l]; try discriminate.
  destruct (h !! l) as [[props| | |]|] eqn:Hl; try discriminate.
  destruct (lookup_prop "ok" props) as [[| |[]| | |]|] eqn:Hok; try discriminate.
  destruct (lookup_prop "value" props) as [v|] eqn:Hv; try discriminate.
  intros _. by exists l, props, v.
Qed.

Lemma is_Err_inv (h : list object) (r : val) :
  is_Err h r = true →
  ∃ l props e, r = VRef l ∧ h !! l = Some (OPlain props) ∧
               lookup_prop "ok" props = Some (VBool false) ∧
               lookup_prop "error" props = Some e.
Proof.
  unfold is_Err. destruct r as [| | | | |l]; try discriminate.
  destruct (h !! l) as [[props| | |]|] eqn:Hl; try discriminate.
  destruct (lookup_prop "ok" props) as [[| |[]| | |]|] eqn:Hok; try discriminate.
  destruct (lookup_prop "error" props) as [e|] eqn:He; try discriminate.
  intros _. by exists l, props, e.
Qed.

(** ** The [Result] helpers *)

(** C6: for every value [v], [Result.ok(v)] completes normally and returns a
    new record whose flag [ok] is [true] and whose [value] is exactly [v],
    whatever [v] is ([undefined], [null], another outcome: nothing is
    inspected or flattened); for every [e], [Result.err(e)] completes
    normally and returns a new record whose flag is [false] and whose
    [error] is exactly [e]. *)
Theorem Result_ok_err_construct (v e : val) (s : state) :
  (∃ s', Result.ok v s = (Normal (VRef (length (heap s))), s') ∧
         heap s' = heap s ++ [OPlain [("ok", VBool true); ("value", v)]] ∧
         queue s' = queue s ∧
         get_prop (VRef (length (heap s))) "ok" s' = (Normal (VBool true), s') ∧
         get_prop (VRef (length (heap s))) "value" s' = (Normal v, s')) ∧
  (∃ s', Result.err e s = (Normal (VRef (length (heap s))), s') ∧
         heap s' = heap s ++ [OPlain [("ok", VBool false); ("error", e)]] ∧
         queue s' = queue s ∧
         get_prop (VRef (length (heap s))) "ok" s' = (Normal (VBool false), s') ∧
         get_prop (VRef (length (heap s))) "error" s' = (Normal e, s')).
Proof.
  split; eexists; (split; [apply object_literal_spec|]);
    (split; [reflexivity|]); (split; [reflexivity|]);
    split; by rewrite (get_prop_fresh _ _ _ _).
Qed.

(** C7: [isOk(ok(v))] is [true], [isErr(ok(v))] is [false], [isErr(err(e))]
    is [true] and [isOk(err(e))] is [false], for all [v] and [e]. *)
Theorem Result_guards_on_constructors (v e : val) (s : state) :
  (let! r := Result.ok v in Result.isOk r) s = (Normal (VBool true), snd (Result.ok v s)) ∧
  (let! r := Result.ok v in Result.isErr r) s = (Normal (VBool false), snd (Result.ok v s)) ∧
  (let! r := Result.err e in Result.isErr r) s = (Normal (VBool true), snd (Result.err e s)) ∧
  (let! r := Result.err e in Result.isOk r) s = (Normal (VBool false), snd (Result.err e s)).
Proof.
  repeat split;
    unfold Result.ok, Result.err, Result.isOk, Result.isErr;
    rewrite (bind_Normal _ _ _ _ _ (object_literal_spec _ _)); cbn beta;
    rewrite ?(bind_Normal _ _ _ _ _ (get_prop_fresh _ _ _ _)), ?get_prop_fresh;
    reflexivity.
Qed.

(** C8: [unwrapOr(ok(v), d)] is [v] and [unwrapOr(err(e), d)] is [d], for
    all [v], [e] and [d]; and on every [Result] value, of either variant,
    [unwrapOr] completes normally, without changing the state. *)
Theorem Result_unwrapOr_total (v e d : val) (s : state) :
  (let! r := Result.ok v in Result.unwrapOr r d) s = (Normal v, snd (Result.ok v s)) ∧
  (let! r := Result.err e in Result.unwrapOr r d) s = (Normal d, snd (Result.err e s)) ∧
  (∀ r, is_Result (heap s) r = true →
        ∃ x, Result.unwrapOr r d s = (Normal x, s)).
Proof.
  split; [|split].
  - unfold Result.ok, Result.err, Result.unwrapOr.
    rewrite (bind_Normal _ _ _ _ _ (object_literal_spec _ _)); cbn beta.
    rewrite (bind_Normal _ _ _ _ _ (get_prop_fresh _ _ _ _)); cbn.
    rewrite ?get_prop_fresh; reflexivity.
  - unfold Result.ok, Result.err, Result.unwrapOr.
    rewrite (bind_Normal _ _ _ _ _ (object_literal_spec _ _)); cbn beta.
    rewrite (bind_Normal _ _ _ _ _ (get_prop_fresh _ _ _ _)); cbn.
    rewrite ?get_prop_fresh; reflexivity.
  - intros r Hr. unfold is_Result in Hr. apply orb_true_iff in Hr as [Hr|Hr].
    + apply is_Ok_inv in Hr as (l & props & x & -> & Hl & Hok & Hv).
      exists x. unfold Result.unwrapOr.
      rewrite (bind_Normal _ _ _ _ _ (get_prop_plain _ _ _ _ Hl)), Hok; cbn.
      by rewrite (get_prop_plain _ _ _ _ Hl), Hv.
    + apply is_Err_inv in Hr as (l & props & x & -> & Hl & Hok & Hv).
      exists d. unfold Result.unwrapOr.
      by rewrite (bind_Normal _ _ _ _ _ (get_prop_plain _ _ _ _ Hl)), Hok.
Qed.

Lemma Result_unwrapOr_total_witness :
  let s := State [OPlain [("ok", VBool false); ("error", VString "oops")]] [] in
  is_Result (heap s) (VRef 0) = true ∧
  ∃ x, Result.unwrapOr (VRef 0) (VNumber 100) s = (Normal x, s).
Proof.
  split; [reflexivity|].
  apply (Result_unwrapOr_total VUndefined VUndefined (VNumber 100)
           (State [OPlain [("ok", VBool false); ("error", VString "oops")]] [])).
  reflexivity.
Defined.

(** C9: [isOk], [isErr] and [unwrapOr] tell the variants apart by the flag
    [ok] alone.  On any object, whatever payload properties it has or
    lacks, their results are functions of the flag (and, for [unwrapOr] on
    a true flag, of what [value] reads as); in particular
    [unwrapOr(ok(undefined), d)] is [undefined], not [d], and
    [isOk(ok(undefined))] is [true]. *)
Theorem Result_flag_is_sole_discriminant (d : val) (s : state) :
  (∀ l props flag,
     heap s !! l = Some (OPlain props) →
     lookup_prop "ok" props = Some flag →
     Result.isOk (VRef l) s = (Normal flag, s) ∧
     Result.isErr (VRef l) s = (Normal (VBool (negb (to_boolean flag))), s) ∧
     Result.unwrapOr (VRef l) d s =
       (Normal (if to_boolean flag
                then default VUndefined (lookup_prop "value" props)
                else d), s)) ∧
  (let! r := Result.ok VUndefined in Result.unwrapOr r d) s
    = (Normal VUndefined, snd (Result.ok VUndefined s)) ∧
  (let! r := Result.ok VUndefined in Result.isOk r) s
    = (Normal (VBool true), snd (Result.ok VUndefined s)).
Proof.
  split; [|split].
  - intros l props flag Hl Hok.
    unfold Result.isOk, Result.isErr, Result.unwrapOr.
    rewrite !(bind_Normal _ _ _ _ _ (get_prop_plain _ _ _ _ Hl)).
    rewrite (get_prop_plain _ _ _ _ Hl), Hok; cbn.
    repeat split. destruct (to_boolean flag); [|reflexivity].
    by rewrite (get_prop_plain _ _ _ _ Hl).
  - unfold Result.ok, Result.err, Result.unwrapOr.
    rewrite (bind_Normal _ _ _ _ _ (object_literal_spec _ _)); cbn beta.
    rewrite (bind_Normal _ _ _ _ _ (get_prop_fresh _ _ _ _)); cbn.
    rewrite ?get_prop_fresh; reflexivity.
  - unfold Result.ok, Result.isOk.
    rewrite (bind_Normal _ _ _ _ _ (object_literal_spec _ _)); cbn beta.
    by rewrite get_prop_fresh.
Qed.

(** A record with a false flag and a [value] property, and a record with a
    true flag and no payload at all: only the flag counts. *)
Lemma Result_flag_is_sole_discriminant_witness :
  let s := State [OPlain [("ok", VBool false); ("value", VNumber 1)];
                  OPlain [("ok", VBool true)]] [] in
  Result.unwrapOr (VRef 0) (VNumber 7) s = (Normal (VNumber 7), s) ∧
  Result.isErr (VRef 0) s = (Normal (VBool true), s) ∧
  Result.unwrapOr (VRef 1) (VNumber 7) s = (Normal VUndefined, s) ∧
  Result.isOk (VRef 1) s = (Normal (VBool true), s).
Proof.
  pose (s := State [OPlain [("ok", VBool false); ("value", VNumber 1)];
                    OPlain [("ok", VBool true)]] []).
  destruct (Result_flag_is_sole_discriminant (VNumber 7) s) as [H _].
  destruct (H 0 _ (VBool false) eq_refl eq_refl) as (_ & H0e & H0u).
  destruct (H 1 _ (VBool true) eq_refl eq_refl) as (H1o & _ & H1u).
  repeat split; assumption.
Defined.

(** C10: on every [Result] value, of either variant, [isErr] is the boolean
    negation of [isOk]: both return a boolean and exactly one of them is
    [true]. *)
Theorem Result_isErr_negates_isOk (r : val) (s : state) :
  is_Result (heap s) r = true →
  ∃ b, Result.isOk r s = (Normal (VBool b), s) ∧
       Result.isErr r s = (Normal (VBool (negb b)), s).
Proof.
  intros Hr. unfold is_Result in Hr. apply orb_true_iff in Hr as [Hr|Hr].
  - apply is_Ok_inv in Hr as (l & props & x & -> & Hl & Hok & _).
    exists true. unfold Result.isOk, Result.isErr.
    by rewrite (bind_Normal _ _ _ _ _ (get_prop_plain _ _ _ _ Hl)),
         (get_prop_plain _ _ _ _ Hl), Hok.
  - apply is_Err_inv in Hr as (l & props & x & -> & Hl & Hok & _).
    exists false. unfold Result.isOk, Result.isErr.
    by rewrite (bind_Normal _ _ _ _ _ (get_prop_plain _ _ _ _ Hl)),
         (get_prop_plain _ _ _ _ Hl), Hok.
Qed.

Lemma Result_isErr_negates_isOk_witness :
  let s := State [OPlain [("ok", VBool true); ("value", VNumber 42)]] [] in
  is_Result (heap s) (VRef 0) = true ∧
  ∃ b, Result.isOk (VRef 0) s = (Normal (VBool b), s) ∧
       Result.isErr (VRef 0) s = (Normal (VBool (negb b)), s).
Proof.
  split; [reflexivity|].
  apply (Result_isErr_negates_isOk (VRef 0)
           (State [OPlain [("ok", VBool true); ("value", VNumber 42)]] [])).
  reflexivity.
Defined.

(** ** Heaps along a run *)

Lemma preserved_refl (h : list object) : preserved h h.
Proof. intros l o H. exists o. split; [done|]. destruct o; simpl; eauto. Qed.

Lemma same_kind_trans (o1 o2 o3 : object) :
  same_kind o1 o2 → same_kind o2 o3 → same_kind o1 o3.
Proof.
  destruct o1; simpl; intros H12 H23; subst; try done.
  destruct H12 as [st' ->]. exact H23.
Qed.

Lemma preserved_trans (h1 h2 h3 : list object) :
  preserved h1 h2 → preserved h2 h3 → preserved h1 h3.
Proof.
  intros H12 H23 l o H.
  destruct (H12 l o H) as (o2 & H2 & K2).
  destruct (H23 l o2 H2) as (o3 & H3 & K3).
  exists o3. split; [done|]. by eapply same_kind_trans.
Qed.

Lemma preserved_app (h ext : list object) : preserved h (h ++ ext).
Proof.
  intros l o H. exists o. split; [by apply lookup_old|].
  destruct o; simpl; eauto.
Qed.

Lemma preserved_insert (h : list object) (p : loc) (st st' : pstate) :
  h !! p = Some (OPromise st) → preserved h (<[p := OPromise st']> h).
Proof.
  intros Hp l o H. destruct (decide (l = p)) as [Heq|Hne].
  - subst l. rewrite Hp in H. injection H as <-.
    exists (OPromise st'). split; [|simpl; eauto].
    apply list_lookup_insert_eq. by eapply lookup_lt_Some.
  - exists o. rewrite list_lookup_insert_ne by done.
    split; [done|]. destruct o; simpl; eauto.
Qed.

Lemma preserved_length (h h' : list object) : preserved h h' → length h ≤ length h'.
Proof.
  intros H. destruct (decide (length h ≤ length h')) as [|Hgt]; [done|].
  assert (Hlt : length h' < length h) by lia.
  destruct (lookup_lt_is_Some_2 h (length h') Hlt) as [o Ho].
  destruct (H _ _ Ho) as (o' & Ho' & _).
  apply lookup_lt_Some in Ho'. lia.
Qed.

Lemma value_wf_preserved (h h' : list object) (v : val) :
  preserved h h' → value_wf h v → value_wf h' v.
Proof.
  intros H. destruct v; simpl; try done.
  apply preserved_length in H. lia.
Qed.

Lemma lookup_plain_preserved (h h' : list object) (l : loc) (props : list (string * val)) :
  preserved h h' → h !! l = Some (OPlain props) → h' !! l = Some (OPlain props).
Proof. intros H Hl. destruct (H _ _ Hl) as (o' & Ho' & K). simpl in K. by subst. Qed.

Lemma lookup_error_preserved (h h' : list object) (l : loc) (m : string) :
  preserved h h' → h !! l = Some (OError m) → h' !! l = Some (OError m).
Proof. intros H Hl. destruct (H _ _ Hl) as (o' & Ho' & K). simpl in K. by subst. Qed.

Lemma instanceof_Error_preserved (h h' : list object) (v : val) :
  preserved h h' → value_wf h v → instanceof_Error h' v = instanceof_Error h v.
Proof.
  intros H Hwf. destruct v as [| | | | |l]; try done. simpl in *.
  destruct (lookup_lt_is_Some_2 h l Hwf) as [o Ho].
  destruct (H _ _ Ho) as (o' & Ho' & K). rewrite Ho, Ho'.
  destruct o; simpl in K; subst; try done. by destruct K as [st' ->].
Qed.

Lemma plain_record_not_thenable (h : list object) (v : val) :
  plain_record h v → is_thenable h v = false.
Proof. intros (l & props & -> & Hl & Hthen). simpl. by rewrite Hl, Hthen. Qed.

Lemma plain_record_wf (h : list object) (v : val) : plain_record h v → value_wf h v.
Proof. intros (l & props & -> & Hl & _). simpl. by eapply lookup_lt_Some. Qed.

Lemma plain_record_preserved (h h' : list object) (v : val) :
  preserved h h' → plain_record h v → plain_record h' v.
Proof.
  intros H (l & props & -> & Hl & Hthen). exists l, props.
  split; [done|]. split; [|done]. by eapply lookup_plain_preserved.
Qed.

Lemma good_arg_wf (h : list object) (hd : handler) (v : val) :
  good_arg h hd v → value_wf h v.
Proof. destruct hd; simpl; try done. apply plain_record_wf. Qed.

Lemma good_arg_preserved (h h' : list object) (hd : handler) (v : val) :
  preserved h h' → good_arg h hd v → good_arg h' hd v.
Proof.
  intros H. destruct hd; simpl;
    first [by apply plain_record_preserved | by apply value_wf_preserved | done].
Qed.

Lemma outcome_preserved (h h' : list object) (hd : handler) (v : val) (st : pstate) :
  preserved h h' → value_wf h v → outcome h hd v st → outcome h' hd v st.
Proof.
  intros H Hwf Ho. destruct Ho.
  - constructor.
  - constructor.
  - constructor. by eapply lookup_plain_preserved.
  - constructor. by eapply lookup_plain_preserved.
Qed.

(** ** Well-formed states are closed under the steps *)

Lemma value_wf_mono (h h' : list object) (v : val) :
  length h ≤ length h' → value_wf h v → value_wf h' v.
Proof. intros Hle. destruct v; simpl; try done. lia. Qed.

Lemma object_wf_mono (h h' : list object) (o : object) :
  length h ≤ length h' → object_wf h o → object_wf h' o.
Proof.
  intros Hle. destruct o as [| | |[frs rrs|v|v]]; simpl; try done.
  - intros H. eapply Forall_impl; [exact H|]. intros rx. simpl. lia.
  - by apply value_wf_mono.
  - by apply value_wf_mono.
Qed.

Lemma job_wf_mono (h h' : list object) (j : job) :
  length h ≤ length h' → job_wf h j → job_wf h' j.
Proof. intros Hle [Hc Hv]. split; [lia|]. by eapply value_wf_mono. Qed.

Lemma wf_append (h : list object) (q : list job) (ext : list object) :
  wf_state (State h q) → Forall (object_wf (h ++ ext)) ext →
  wf_state (State (h ++ ext) q).
Proof.
  intros [Hh Hq] Hext. split; cbn [heap queue] in *.
  - apply Forall_app. split; [|done].
    eapply Forall_impl; [exact Hh|]. intros o. apply object_wf_mono.
    rewrite length_app. lia.
  - eapply Forall_impl; [exact Hq|]. intros j. apply job_wf_mono.
    rewrite length_app. lia.
Qed.

Lemma wf_pop (h : list object) (j : job) (rest : list job) :
  wf_state (State h (j :: rest)) →
  wf_state (State h rest) ∧ job_wf h j.
Proof.
  intros [Hh Hq]. cbn [heap queue] in *.
  apply Forall_cons in Hq as [Hj Hrest]. split; [by split|done].
Qed.

Lemma wf_insert (h : list object) (q : list job) (p : loc) (o : object) :
  wf_state (State h q) → object_wf h o →
  wf_state (State (<[p := o]> h) q).
Proof.
  intros [Hh Hq] Ho. split; cbn [heap queue] in *.
  - apply Forall_insert.
    + eapply Forall_impl; [exact Hh|]. intros o'. apply object_wf_mono.
      by rewrite length_insert.
    + eapply object_wf_mono; [|exact Ho]. by rewrite length_insert.
  - eapply Forall_impl; [exact Hq|]. intros j. apply job_wf_mono.
    by rewrite length_insert.
Qed.

Lemma wf_enqueue (h : list object) (q js : list job) :
  wf_state (State h q) → Forall (job_wf h) js →
  wf_state (State h (q ++ js)).
Proof. intros [Hh Hq] Hjs. split; cbn [heap queue] in *; [done|]. by apply Forall_app. Qed.

Lemma wf_reactions (s : state) (p : loc) (frs rrs : list reaction) :
  wf_state s → heap s !! p = Some (OPromise (Pending frs rrs)) →
  Forall (λ rx, capability rx < length (heap s)) frs ∧
  Forall (λ rx, capability rx < length (heap s)) rrs.
Proof.
  intros [Hh _] Hp.
  pose proof (Forall_lookup_1 _ _ _ _ Hh Hp) as H. simpl in H.
  by apply Forall_app in H.
Qed.

Lemma wf_settled (s : state) (p : loc) (st : pstate) (v : val) :
  wf_state s → heap s !! p = Some (OPromise st) →
  st = Fulfilled v ∨ st = Rejected v → value_wf (heap s) v.
Proof.
  intros [Hh _] Hp Hst.
  pose proof (Forall_lookup_1 _ _ _ _ Hh Hp) as H.
  by destruct Hst as [-> | ->].
Qed.

Lemma wf_settle (h : list object) (q : list job) (p : loc) (st : pstate)
    (v : val) (rs : list reaction) :
  wf_state (State h q) → value_wf h v →
  st = Fulfilled v ∨ st = Rejected v →
  Forall (λ rx, capability rx < length h) rs →
  wf_state (State (<[p := OPromise st]> h) (q ++ map (λ rx, Job rx v) rs)).
Proof.
  intros Hwf Hv Hst Hrs.
  apply wf_enqueue.
  - apply wf_insert; [done|]. by destruct Hst as [-> | ->].
  - rewrite Forall_map. eapply Forall_impl; [exact Hrs|].
    intros rx Hrx. split; cbn [job_reaction job_argument].
    + by rewrite length_insert.
    + eapply value_wf_mono; [|exact Hv]. by rewrite length_insert.
Qed.

Lemma wf_fulfill (s : state) (p : loc) (v : val) :
  wf_state s → value_wf (heap s) v → wf_state (fulfill_promise p v s).
Proof.
  intros Hwf Hv. unfold fulfill_promise.
  destruct (heap s !! p) as [[| | |[frs rrs|w|w]]|] eqn:Hp; try done.
  destruct (wf_reactions s p frs rrs Hwf Hp) as [Hf Hr].
  destruct s as [h q]. apply wf_settle; eauto.
Qed.

Lemma wf_reject (s : state) (p : loc) (r : val) :
  wf_state s → value_wf (heap s) r → wf_state (reject_promise p r s).
Proof.
  intros Hwf Hv. unfold reject_promise.
  destruct (heap s !! p) as [[| | |[frs rrs|w|w]]|] eqn:Hp; try done.
  destruct (wf_reactions s p frs rrs Hwf Hp) as [Hf Hr].
  destruct s as [h q]. apply wf_settle; eauto.
Qed.

(** A handler only allocates plain objects and errors. *)
Lemma call_handler_shape (hd : handler) (arg : val) (s : state)
    (c : completion val) (s' : state) :
  call_handler hd arg s = Some (c, s') →
  ∃ ext, s' = State (heap s ++ ext) (queue s) ∧
         Forall inert ext ∧
         Forall (object_wf (heap s ++ ext)) ext ∧
         (value_wf (heap s) arg →
          match c with
          | Normal x | Throw x => value_wf (heap s ++ ext) x
          end).
Proof.
  destruct hd; simpl.
  - intros [= <- <-]. exists []. rewrite app_nil_r.
    destruct s; repeat split; simpl; auto.
  - intros [= <- <-]. exists []. rewrite app_nil_r.
    destruct s; repeat split; simpl; auto.
  - intros [= <- <-]. eexists [_]. split; [reflexivity|]. repeat split; simpl.
    + by repeat constructor.
    + by repeat constructor.
    + intros _. rewrite length_app. simpl. lia.
  - intros [= <- <-]. eexists [_]. split; [reflexivity|]. repeat split; simpl.
    + by repeat constructor.
    + by repeat constructor.
    + intros _. rewrite length_app. simpl. lia.
  - unfold pbind, normalize_error, String_call, pbind, lift, bind, get_heap.
    cbn [heap].
    destruct (instanceof_Error (heap s) arg) eqn:Herr; cbn [heap].
    + intros [= <- <-]. eexists [_]. split; [reflexivity|]. repeat split; simpl.
      * by repeat constructor.
      * by repeat constructor.
      * intros _. rewrite length_app. simpl. lia.
    + destruct (to_string (heap s) arg) as [m| |] eqn:Hstr; cbn [heap].
      * intros [= <- <-]. eexists [_; _]. rewrite <- app_assoc.
        split; [reflexivity|]. repeat split; simpl.
        -- by repeat constructor.
        -- by repeat constructor.
        -- intros _. rewrite !length_app. simpl. lia.
      * intros [= <- <-]. eexists [_]. split; [reflexivity|].
        repeat split; simpl.
        -- by repeat constructor.
        -- by repeat constructor.
        -- intros _. rewrite !length_app. simpl. lia.
      * done.
Qed.

Lemma wf_run_job (j : job) (s : state) :
  wf_state s → job_wf (heap s) j → wf_state (run_job j s).
Proof.
  intros Hwf [Hc Hv]. unfold run_job.
  destruct (call_handler _ _ _) as [[c s']|] eqn:Hcall; [|done].
  destruct (call_handler_shape _ _ _ _ _ Hcall) as (ext & Hs' & _ & Hext & Hres).
  specialize (Hres Hv). destruct s as [h q].
  pose proof (wf_append h q ext Hwf Hext) as Hwf'.
  destruct c as [x|e]; cbn [fst snd heap queue] in *; subst s'.
  - unfold resolve_promise.
    destruct (is_thenable _ x); [done|]. by apply wf_fulfill.
  - by apply wf_reject.
Qed.

Lemma wf_then (s s' : state) (v : val) (onF onR : option handler) (c : completion val) :
  wf_state s → promise_then v onF onR s = (c, s') → wf_state s'.
Proof.
  intros Hwf. unfold promise_then, bind, get_heap. destruct s as [h q].
  cbn [heap queue].
  assert (Herr : ∀ m, wf_state (State (h ++ [OError m]) q)).
  { intros m. apply wf_append; [done|]. by repeat constructor. }
  destruct v as [| | | | |p]; try (intros [= <- <-]; apply Herr).
  destruct (h !! p) as [[| | |st]|] eqn:Hp;
    try (intros [= <- <-]; apply Herr).
  assert (Hnew : wf_state (State (h ++ [OPromise (Pending [] [])]) q)).
  { apply wf_append; [done|]. by repeat constructor. }
  assert (Hlen : length h < length (h ++ [OPromise (Pending [] [])])).
  { rewrite length_app. simpl. lia. }
  destruct st as [frs rrs|w|w]; intros [= <- <-].
  - apply wf_insert; [done|]. cbn [object_wf].
    destruct (wf_reactions _ p frs rrs Hwf Hp) as [Hf Hr]. cbn [heap] in *.
    rewrite !Forall_app. repeat split.
    + eapply Forall_impl; [exact Hf|]. intros rx. simpl. lia.
    + repeat constructor. simpl. lia.
    + eapply Forall_impl; [exact Hr|]. intros rx. simpl. lia.
    + repeat constructor. simpl. lia.
  - apply wf_enqueue; [done|].
    repeat constructor; cbn [job_reaction job_argument capability]; [lia|].
    eapply value_wf_mono; [|by eapply (wf_settled (State h q)); eauto]. cbn [heap]. lia.
  - apply wf_enqueue; [done|].
    repeat constructor; cbn [job_reaction job_argument capability]; [lia|].
    eapply value_wf_mono; [|by eapply (wf_settled (State h q)); eauto]. cbn [heap]. lia.
Qed.

Lemma wf_step (s s' : state) : step s s' → wf_state s → wf_state s'.
Proof.
  intros Hstep Hwf.
  destruct Hstep as [s s' Hrun|s p v _ Hv _|s p r _ Hr|s p f r d s' Hthen|s o Ho].
  - unfold run_next in Hrun. destruct s as [h [|j rest]]; [done|].
    injection Hrun as <-.
    destruct (wf_pop h j rest Hwf) as [Hwf' Hj]. by apply wf_run_job.
  - by apply wf_fulfill.
  - by apply wf_reject.
  - by eapply wf_then.
  - destruct s as [h q]. apply wf_append; [done|]. constructor; [|constructor]. destruct Ho; simpl; auto.
Qed.

(** ** The link invariant is closed under the steps *)

Lemma same_for_refl (t : loc) (st : pstate) : same_for t st st.
Proof. destruct st; simpl; eauto. Qed.

Lemma same_status_refl (st : pstate) : same_status st st.
Proof. destruct st; simpl; eauto. Qed.

Lemma outcome_settled (h : list object) (hd : handler) (v : val) (st st' : pstate) :
  outcome h hd v st → same_status st st' → st' = st.
Proof. intros Ho. by destruct Ho. Qed.

Lemma edge_allocated (s : state) (src tgt : loc) (hf hr : handler) :
  edge s src tgt hf hr →
  (∃ st, heap s !! src = Some (OPromise st)) ∧ (∃ st, heap s !! tgt = Some (OPromise st)).
Proof. intros []; eauto. Qed.

Lemma filter_jobs_of_reactions (t : loc) (x : val) (rs : list reaction) :
  filter (job_for t) (map (λ rx, Job rx x) rs) =
  map (λ rx, Job rx x) (filter (reaction_for t) rs).
Proof.
  induction rs as [|rx rs IH]; [done|].
  cbn [map]. rewrite !filter_cons.
  destruct (decide (job_for t (Job rx x))) as [Hj|Hj];
    destruct (decide (reaction_for t rx)) as [Hr|Hr];
    unfold job_for, reaction_for in *; cbn in *; try done.
  by rewrite IH.
Qed.

Lemma filter_none {A} (P : A → Prop) `{∀ x, Decision (P x)} (l : list A) :
  Forall (λ x, ¬ P x) l → filter P l = [].
Proof.
  induction 1 as [|x l Hx _ IH]; [done|]. by rewrite filter_cons_False.
Qed.

(** Whatever leaves the source's reactions for the target, the target's
    status and the queued jobs for the target alone keeps the link. *)
Lemma link_frame (s s' : state) (src tgt : loc) (hf hr : handler) :
  wf_state s →
  link s src tgt hf hr →
  preserved (heap s) (heap s') →
  (∀ st, heap s !! src = Some (OPromise st) →
         ∃ st', heap s' !! src = Some (OPromise st') ∧ same_for tgt st st') →
  (∀ st, heap s !! tgt = Some (OPromise st) →
         ∃ st', heap s' !! tgt = Some (OPromise st') ∧ same_status st st') →
  exclusive s' src tgt →
  filter (job_for tgt) (queue s') = filter (job_for tgt) (queue s) →
  link s' src tgt hf hr.
Proof.
  intros Hwf (Hne & _ & Hedge) Hpres Hsrc Htgt Hexcl Hq.
  split; [done|]. split; [done|].
  destruct Hedge as [frs rrs tf tr Hs Ht Hf Hr Hj|v tf tr Hs Ht Hj Hg
                    |r tf tr Hs Ht Hj Hg|v st Hs Ht Ho|r st Hs Ht Ho].
  - destruct (Hsrc _ Hs) as (st' & Hs' & frs' & rrs' & -> & Hf' & Hr').
    destruct (Htgt _ Ht) as (st'' & Ht' & tf' & tr' & ->).
    eapply edge_waiting; eauto; congruence.
  - destruct (Hsrc _ Hs) as (st' & Hs' & ->).
    destruct (Htgt _ Ht) as (st'' & Ht' & tf' & tr' & ->).
    eapply edge_queued_fulfilled; eauto; [congruence|].
    by eapply good_arg_preserved.
  - destruct (Hsrc _ Hs) as (st' & Hs' & ->).
    destruct (Htgt _ Ht) as (st'' & Ht' & tf' & tr' & ->).
    eapply edge_queued_rejected; eauto; [congruence|].
    by eapply good_arg_preserved.
  - destruct (Hsrc _ Hs) as (st' & Hs' & ->).
    destruct (Htgt _ Ht) as (st'' & Ht' & Hsame).
    rewrite (outcome_settled _ _ _ _ _ Ho Hsame) in Ht'.
    eapply edge_done_fulfilled; eauto.
    eapply outcome_preserved; eauto.
    apply (wf_settled _ _ _ _ Hwf Hs). by left.
  - destruct (Hsrc _ Hs) as (st' & Hs' & ->).
    destruct (Htgt _ Ht) as (st'' & Ht' & Hsame).
    rewrite (outcome_settled _ _ _ _ _ Ho Hsame) in Ht'.
    eapply edge_done_rejected; eauto.
    eapply outcome_preserved; eauto.
    apply (wf_settled _ _ _ _ Hwf Hs). by right.
Qed.

Lemma link_append (h : list object) (q : list job) (ext : list object)
    (src tgt : loc) (hf hr : handler) :
  wf_state (State h q) → Forall inert ext →
  link (State h q) src tgt hf hr →
  link (State (h ++ ext) q) src tgt hf hr.
Proof.
  intros Hwf Hext Hlink. eapply link_frame; eauto; cbn [heap queue].
  - apply preserved_app.
  - intros st Hs. exists st. split; [by apply lookup_old|apply same_for_refl].
  - intros st Ht. exists st. split; [by apply lookup_old|apply same_status_refl].
  - destruct Hlink as (_ & Hexcl & _). intros l o Hl Hne. cbn [heap] in *.
    apply lookup_app_Some in Hl as [Hl|[_ Hl]]; [by eapply Hexcl|].
    pose proof (Forall_lookup_1 _ _ _ _ Hext Hl) as Hin.
    unfold inert in Hin. rewrite Hin. constructor.
Qed.

Lemma link_pop (h : list object) (j : job) (rest : list job)
    (src tgt : loc) (hf hr : handler) :
  wf_state (State h (j :: rest)) → ¬ job_for tgt j →
  link (State h (j :: rest)) src tgt hf hr →
  link (State h rest) src tgt hf hr.
Proof.
  intros Hwf Hj Hlink. eapply link_frame; eauto; cbn [heap queue].
  - apply preserved_refl.
  - intros st Hs. exists st. split; [done|apply same_for_refl].
  - intros st Ht. exists st. split; [done|apply same_status_refl].
  - by destruct Hlink as (_ & Hexcl & _).
  - by rewrite filter_cons_False.
Qed.

Lemma exclusive_insert (h : list object) (q q' : list job) (t : loc) (o : object)
    (src tgt : loc) :
  exclusive (State h q) src tgt →
  (t ≠ src → Forall (λ rx, capability rx ≠ tgt) (reactions_of o)) →
  exclusive (State (<[t := o]> h) q') src tgt.
Proof.
  intros Hexcl Ho l o' Hl Hne. cbn [heap] in *.
  apply list_lookup_insert_Some in Hl as [(<- & <- & _)|[Hlt Hl]]; [by apply Ho|].
  by eapply Hexcl.
Qed.

(** Settling a promise other than the target: the source moves the link
    from waiting to scheduled, any other promise leaves it alone. *)
Lemma link_settle (h : list object) (q : list job) (t : loc) (st : pstate) (x : val)
    (frs rrs rs : list reaction) (src tgt : loc) (hf hr : handler) :
  wf_state (State h q) →
  link (State h q) src tgt hf hr →
  h !! t = Some (OPromise (Pending frs rrs)) →
  t ≠ tgt →
  (st = Fulfilled x ∧ rs = frs ∧ (t = src → good_arg h hf x)) ∨
  (st = Rejected x ∧ rs = rrs ∧ (t = src → good_arg h hr x)) →
  link (State (<[t := OPromise st]> h) (q ++ map (λ rx, Job rx x) rs)) src tgt hf hr.
Proof.
  intros Hwf Hlink Ht Hne Hst.
  assert (Hlt : t < length h) by (by eapply lookup_lt_Some).
  assert (Hinert : reactions_of (OPromise st) = []).
  { by destruct Hst as [(-> & _)|(-> & _)]. }
  destruct (decide (t = src)) as [->|Hsrc].
  - destruct Hlink as (Hdiff & Hexcl & Hedge).
    split; [done|]. split.
    { eapply exclusive_insert; [exact Hexcl|]. intros _. rewrite Hinert. constructor. }
    cbn [heap queue] in *.
    destruct Hedge as [frs' rrs' tf tr Hs Htg Hf Hr Hj|v tf tr Hs|r tf tr Hs
                      |v st' Hs|r st' Hs]; cbn [heap queue] in *;
      rewrite Ht in Hs; try discriminate.
    injection Hs as <- <-.
    destruct Hst as [(-> & -> & Hg)|(-> & -> & Hg)].
    + eapply edge_queued_fulfilled; cbn [heap queue].
      * by apply list_lookup_insert_eq.
      * rewrite list_lookup_insert_ne by done. exact Htg.
      * by rewrite filter_app, Hj, filter_jobs_of_reactions, Hf.
      * eapply good_arg_preserved; [by eapply preserved_insert|by apply Hg].
    + eapply edge_queued_rejected; cbn [heap queue].
      * by apply list_lookup_insert_eq.
      * rewrite list_lookup_insert_ne by done. exact Htg.
      * by rewrite filter_app, Hj, filter_jobs_of_reactions, Hr.
      * eapply good_arg_preserved; [by eapply preserved_insert|by apply Hg].
  - pose proof Hlink as (_ & Hexcl & _).
    eapply link_frame; eauto; cbn [heap queue].
    + by eapply preserved_insert.
    + intros st' Hs. exists st'.
      split; [by rewrite list_lookup_insert_ne|apply same_for_refl].
    + intros st' Htg. exists st'.
      split; [by rewrite list_lookup_insert_ne|apply same_status_refl].
    + eapply exclusive_insert; [exact Hexcl|]. intros _. rewrite Hinert. constructor.
    + rewrite filter_app, filter_jobs_of_reactions.
      pose proof (Hexcl t _ Ht Hsrc) as Hnone. cbn [reactions_of] in Hnone.
      apply Forall_app in Hnone as [Hnf Hnr].
      assert (Hrs : filter (reaction_for tgt) rs = []).
      { apply filter_none. by destruct Hst as [(_ & -> & _)|(_ & -> & _)]. }
      rewrite Hrs. cbn [map]. by rewrite app_nil_r.
Qed.

(** A promise that is still pending at the end of a link is owned: by the
    reaction registered on the source, or by the job already queued. *)
Lemma link_owned (s : state) (src tgt : loc) (hf hr : handler) (tf tr : list reaction) :
  link s src tgt hf hr →
  heap s !! tgt = Some (OPromise (Pending tf tr)) →
  ¬ unowned s tgt.
Proof.
  intros (_ & _ & Hedge) Ht [Hheap Hqueue].
  destruct Hedge as [frs rrs tf' tr' Hs _ Hf _ _|v tf' tr' _ _ Hj _|r tf' tr' _ _ Hj _
                    |v st _ Ht' Ho|r st _ Ht' Ho].
  - pose proof (Forall_lookup_1 _ _ _ _ Hheap Hs) as Hno. cbn [reactions_of] in Hno.
    apply Forall_app in Hno as [Hno _].
    assert (Hin : Reaction hf tgt ∈ filter (reaction_for tgt) frs) by (rewrite Hf; set_solver).
    apply list_elem_of_filter in Hin as [_ Hin].
    rewrite Forall_forall in Hno. by apply (Hno _ Hin).
  - assert (Hin : Job (Reaction hf tgt) v ∈ filter (job_for tgt) (queue s))
      by (rewrite Hj; set_solver).
    apply list_elem_of_filter in Hin as [_ Hin].
    rewrite Forall_forall in Hqueue. by apply (Hqueue _ Hin).
  - assert (Hin : Job (Reaction hr tgt) r ∈ filter (job_for tgt) (queue s))
      by (rewrite Hj; set_solver).
    apply list_elem_of_filter in Hin as [_ Hin].
    rewrite Forall_forall in Hqueue. by apply (Hqueue _ Hin).
  - rewrite Ht in Ht'. injection Ht' as <-. inversion Ho.
  - rewrite Ht in Ht'. injection Ht' as <-. inversion Ho.
Qed.

(** ** [trySafe]: what one call does *)

Lemma promise_then_spec (s : state) (p : loc) (st : pstate)
    (onFulfilled onRejected : option handler) :
  heap s !! p = Some (OPromise st) →
  let d := length (heap s) in
  let rf := Reaction (default HIdentity onFulfilled) d in
  let rr := Reaction (default HThrower onRejected) d in
  let h' := heap s ++ [OPromise (Pending [] [])] in
  promise_then (VRef p) onFulfilled onRejected s =
  (Normal (VRef d),
   match st with
   | Pending frs rrs =>
       State (<[p := OPromise (Pending (frs ++ [rf]) (rrs ++ [rr]))]> h') (queue s)
   | Fulfilled v => State h' (queue s ++ [Job rf v])
   | Rejected r => State h' (queue s ++ [Job rr r])
   end).
Proof.
  intros H. unfold promise_then, bind, get_heap. rewrite H.
  destruct st; reflexivity.
Qed.

Lemma instanceof_Promise_inv (h : list object) (v : val) :
  instanceof_Promise h v = true → ∃ p st, v = VRef p ∧ h !! p = Some (OPromise st).
Proof.
  unfold instanceof_Promise. destruct v as [| | | | |p]; try discriminate.
  destruct (h !! p) as [[| | |st]|] eqn:Hp; try discriminate. eauto.
Qed.


(** Chaining a new reaction on any promise keeps an existing link. *)
Lemma link_then (s s' : state) (p : loc) (onF onR : option handler) (d : val)
    (src tgt : loc) (hf hr : handler) :
  wf_state s →
  link s src tgt hf hr →
  promise_then (VRef p) onF onR s = (Normal d, s') →
  link s' src tgt hf hr.
Proof.
  intros Hwf Hlink Hthen.
  destruct (heap s !! p) as [[| | |st]|] eqn:Hp;
    try (unfold promise_then, bind, get_heap in Hthen; rewrite Hp in Hthen; discriminate).
  rewrite (promise_then_spec _ _ _ _ _ Hp) in Hthen. cbv zeta in Hthen.
  injection Hthen as _ <-.
  pose proof Hlink as (Hdiff & Hexcl & Hedge).
  destruct (edge_allocated _ _ _ _ _ Hedge) as [[sst Hs] [tst Ht]].
  assert (Htlt : tgt < length (heap s)) by (by eapply lookup_lt_Some).
  assert (Hplt : p < length (heap s)) by (by eapply lookup_lt_Some).
  assert (Hfresh : ∀ hd, ¬ reaction_for tgt (Reaction hd (length (heap s)))).
  { intros hd. unfold reaction_for. cbn. lia. }
  destruct s as [h q]. cbn [heap queue] in *.
  pose proof (link_append h q [OPromise (Pending [] [])] src tgt hf hr Hwf
                ltac:(by repeat constructor) Hlink) as Hlink'.
  assert (Hwf' : wf_state (State (h ++ [OPromise (Pending [] [])]) q)).
  { apply wf_append; [done|]. by repeat constructor. }
  destruct st as [frs rrs|v|r].
  - eapply link_frame; [exact Hwf'|exact Hlink'|..]; cbn [heap queue].
    + eapply preserved_insert. by apply lookup_old.
    + intros st Hs'. destruct (decide (p = src)) as [->|Hne].
      * rewrite (lookup_old _ _ _ _ Hp) in Hs'. injection Hs' as <-.
        eexists. split; [apply list_lookup_insert_eq; rewrite length_app; lia|].
        cbn [same_for]. eexists _, _. split; [done|].
        rewrite !filter_app, !filter_cons_False, !filter_nil, !app_nil_r by apply Hfresh.
        done.
      * exists st. split; [by rewrite list_lookup_insert_ne|apply same_for_refl].
    + intros st Ht'. destruct (decide (p = tgt)) as [->|Hne].
      * rewrite (lookup_old _ _ _ _ Hp) in Ht'. injection Ht' as <-.
        eexists. split; [apply list_lookup_insert_eq; rewrite length_app; lia|].
        cbn [same_status]. eauto.
      * exists st. split; [by rewrite list_lookup_insert_ne|apply same_status_refl].
    + destruct Hlink' as (_ & Hexcl' & _).
      eapply exclusive_insert; [exact Hexcl'|]. intros Hne.
      pose proof (Hexcl p _ Hp Hne) as Hold. cbn [reactions_of] in *.
      apply Forall_app in Hold as [Hof Hor].
      rewrite !Forall_app. repeat split; try done; repeat constructor; cbn; lia.
    + done.
  - eapply link_frame; [exact Hwf'|exact Hlink'|..]; cbn [heap queue].
    + apply preserved_refl.
    + intros st Hs'. exists st. split; [done|apply same_for_refl].
    + intros st Ht'. exists st. split; [done|apply same_status_refl].
    + by destruct Hlink' as (_ & Hexcl' & _).
    + rewrite filter_app, filter_cons_False, filter_nil, app_nil_r; [done|].
      unfold job_for. cbn. lia.
  - eapply link_frame; [exact Hwf'|exact Hlink'|..]; cbn [heap queue].
    + apply preserved_refl.
    + intros st Hs'. exists st. split; [done|apply same_for_refl].
    + intros st Ht'. exists st. split; [done|apply same_status_refl].
    + by destruct Hlink' as (_ & Hexcl' & _).
    + rewrite filter_app, filter_cons_False, filter_nil, app_nil_r; [done|].
      unfold job_for. cbn. lia.
Qed.


Lemma fulfill_cases (h : list object) (q : list job) (t : loc) (x : val) :
  (∃ tf tr, h !! t = Some (OPromise (Pending tf tr)) ∧
            fulfill_promise t x (State h q) =
            State (<[t := OPromise (Fulfilled x)]> h) (q ++ map (λ rx, Job rx x) tf)) ∨
  ((∀ tf tr, h !! t ≠ Some (OPromise (Pending tf tr))) ∧
   fulfill_promise t x (State h q) = State h q).
Proof.
  unfold fulfill_promise. cbn [heap queue].
  destruct (h !! t) as [[| | |[tf tr|w|w]]|]; eauto; right; by split.
Qed.

Lemma reject_cases (h : list object) (q : list job) (t : loc) (x : val) :
  (∃ tf tr, h !! t = Some (OPromise (Pending tf tr)) ∧
            reject_promise t x (State h q) =
            State (<[t := OPromise (Rejected x)]> h) (q ++ map (λ rx, Job rx x) tr)) ∨
  ((∀ tf tr, h !! t ≠ Some (OPromise (Pending tf tr))) ∧
   reject_promise t x (State h q) = State h q).
Proof.
  unfold reject_promise. cbn [heap queue].
  destruct (h !! t) as [[| | |[tf tr|w|w]]|]; eauto; right; by split.
Qed.

Lemma fresh_record_not_thenable (h : list object) (props : list (string * val)) :
  lookup_prop "then" props = None →
  is_thenable (h ++ [OPlain props]) (VRef (length h)) = false.
Proof. intros H. cbn [is_thenable]. by rewrite lookup_fresh, H. Qed.

Lemma call_normalized_error (h : list object) (q : list job) (arg : val) :
  instanceof_Error h arg = true →
  call_handler HWrapErrNormalized arg (State h q) =
  Some (Normal (VRef (length h)),
        State (h ++ [OPlain [("ok", VBool false); ("error", arg)]]) q).
Proof.
  intros H. unfold call_handler, pbind, normalize_error, pbind, lift, get_heap.
  cbn [heap]. by rewrite H.
Qed.

Lemma call_normalized_converted (h : list object) (q : list job) (arg : val) (m : string) :
  instanceof_Error h arg = false →
  to_string h arg = Converted m →
  call_handler HWrapErrNormalized arg (State h q) =
  Some (Normal (VRef (length (h ++ [OError m]))),
        State ((h ++ [OError m])
                 ++ [OPlain [("ok", VBool false); ("error", VRef (length h))]]) q).
Proof.
  intros H Hm.
  unfold call_handler, pbind, normalize_error, String_call, pbind, lift, get_heap.
  cbn [heap]. rewrite H. cbn [heap]. by rewrite Hm.
Qed.

Lemma call_normalized_throws (h : list object) (q : list job) (arg : val) :
  instanceof_Error h arg = false →
  to_string h arg = ConversionThrows →
  call_handler HWrapErrNormalized arg (State h q) =
  Some (Throw (VRef (length h)),
        State (h ++ [OError "Cannot convert object to primitive value"]) q).
Proof.
  intros H Hm.
  unfold call_handler, pbind, normalize_error, String_call, pbind, lift, get_heap.
  cbn [heap]. rewrite H. cbn [heap]. by rewrite Hm.
Qed.

Lemma call_normalized_not_modelled (h : list object) (q : list job) (arg : val) :
  instanceof_Error h arg = false →
  to_string h arg = NotModelled →
  call_handler HWrapErrNormalized arg (State h q) = None.
Proof.
  intros H Hm.
  unfold call_handler, pbind, normalize_error, String_call, pbind, lift, get_heap.
  cbn [heap]. rewrite H. cbn [heap]. by rewrite Hm.
Qed.

(** A job allocates what its handler allocates, and then either settles its
    target, which was pending, or leaves every promise as it is. *)
Lemma run_job_cases (h : list object) (q : list job) (hd : handler) (t : loc) (arg : val) :
  value_wf h arg →
  ∃ ext, Forall inert ext ∧ Forall (object_wf (h ++ ext)) ext ∧
    ((∃ tf tr st x rs,
        (h ++ ext) !! t = Some (OPromise (Pending tf tr)) ∧
        ((st = Fulfilled x ∧ rs = tf) ∨ (st = Rejected x ∧ rs = tr)) ∧
        value_wf (h ++ ext) x ∧
        (good_arg h hd arg → outcome (h ++ ext) hd arg st) ∧
        run_job (Job (Reaction hd t) arg) (State h q) =
          State (<[t := OPromise st]> (h ++ ext)) (q ++ map (λ rx, Job rx x) rs))
     ∨
     ((good_arg h hd arg → ∀ tf tr, (h ++ ext) !! t ≠ Some (OPromise (Pending tf tr))) ∧
      run_job (Job (Reaction hd t) arg) (State h q) = State (h ++ ext) q)).
Proof.
  intros Hwf. unfold run_job. cbn [job_reaction job_argument handler_of capability].
  destruct hd.
  - (* identity *)
    cbn [call_handler lift].
    exists []. rewrite app_nil_r. split; [constructor|]. split; [constructor|].
    unfold ret, resolve_promise. cbn [heap].
    destruct (is_thenable h arg) eqn:Hth.
    + right. split; [|done]. intros Hg.
      apply plain_record_not_thenable in Hg. congruence.
    + destruct (fulfill_cases h q t arg) as [(tf & tr & Ht & ->)|[Hno ->]].
      * left. exists tf, tr, (Fulfilled arg), arg, tf.
        split; [done|]. split; [by left|]. split; [done|]. split; [|done].
        intros _. constructor.
      * right. by split.
  - (* thrower *)
    cbn [call_handler lift].
    exists []. rewrite app_nil_r. split; [constructor|]. split; [constructor|].
    unfold throw.
    destruct (reject_cases h q t arg) as [(tf & tr & Ht & ->)|[Hno ->]].
    + left. exists tf, tr, (Rejected arg), arg, tr.
      split; [done|]. split; [by right|]. split; [done|]. split; [|done].
      intros _. constructor.
    + right. by split.
  - (* wrap as success *)
    cbn [call_handler lift].
    exists [OPlain [("ok", VBool true); ("value", arg)]].
    split; [by repeat constructor|]. split; [by repeat constructor|].
    rewrite object_literal_spec. cbn [heap queue].
    unfold resolve_promise. cbn [heap].
    rewrite fresh_record_not_thenable by reflexivity.
    destruct (fulfill_cases (h ++ [OPlain [("ok", VBool true); ("value", arg)]]) q t
                (VRef (length h))) as [(tf & tr & Ht & ->)|[Hno ->]].
    + left. exists tf, tr, (Fulfilled (VRef (length h))), (VRef (length h)), tf.
      split; [done|]. split; [by left|]. split; [|split; [|done]].
      * cbn. rewrite length_app. cbn. lia.
      * intros _. constructor. apply lookup_fresh.
    + right. by split.
  - (* wrap as failure *)
    cbn [call_handler lift].
    exists [OPlain [("ok", VBool false); ("error", arg)]].
    split; [by repeat constructor|]. split; [by repeat constructor|].
    rewrite object_literal_spec. cbn [heap queue].
    unfold resolve_promise. cbn [heap].
    rewrite fresh_record_not_thenable by reflexivity.
    destruct (fulfill_cases (h ++ [OPlain [("ok", VBool false); ("error", arg)]]) q t
                (VRef (length h))) as [(tf & tr & Ht & ->)|[Hno ->]].
    + left. exists tf, tr, (Fulfilled (VRef (length h))), (VRef (length h)), tf.
      split; [done|]. split; [by left|]. split; [|split; [|done]].
      * cbn. rewrite length_app. cbn. lia.
      * intros _. constructor. apply lookup_fresh.
    + right. by split.
  - (* wrap as failure, normalised: not followed by the invariant *)
    destruct (instanceof_Error h arg) eqn:Herr.
    + rewrite (call_normalized_error _ _ _ Herr).
      exists [OPlain [("ok", VBool false); ("error", arg)]].
      split; [by repeat constructor|]. split; [by repeat constructor|].
      unfold resolve_promise. cbn [heap].
      rewrite fresh_record_not_thenable by reflexivity.
      destruct (fulfill_cases (h ++ [OPlain [("ok", VBool false); ("error", arg)]]) q t
                  (VRef (length h))) as [(tf & tr & Ht & ->)|[Hno ->]].
      * left. exists tf, tr, (Fulfilled (VRef (length h))), (VRef (length h)), tf.
        split; [done|]. split; [by left|]. split; [|split; [|done]].
        -- cbn. rewrite length_app. cbn. lia.
        -- intros [].
      * right. by split.
    + destruct (to_string h arg) as [m| |] eqn:Hstr.
      * rewrite (call_normalized_converted _ _ _ _ Herr Hstr).
        exists [OError m; OPlain [("ok", VBool false); ("error", VRef (length h))]].
        replace (h ++ [OError m;
                       OPlain [("ok", VBool false); ("error", VRef (length h))]])
          with ((h ++ [OError m])
                  ++ [OPlain [("ok", VBool false); ("error", VRef (length h))]])
          by (by rewrite <- app_assoc).
        split; [by repeat constructor|]. split; [by repeat constructor|].
        unfold resolve_promise. cbn [heap].
        rewrite fresh_record_not_thenable by reflexivity.
        set (h2 := (h ++ [OError m])
                     ++ [OPlain [("ok", VBool false); ("error", VRef (length h))]]).
        destruct (fulfill_cases h2 q t (VRef (length (h ++ [OError m]))))
          as [(tf & tr & Ht & ->)|[Hno ->]].
        -- left. exists tf, tr, (Fulfilled (VRef (length (h ++ [OError m])))),
                   (VRef (length (h ++ [OError m]))), tf.
           split; [done|]. split; [by left|]. split; [|split; [|done]].
           ++ unfold h2. cbn. rewrite !length_app. cbn. lia.
           ++ intros [].
        -- right. by split.
      * rewrite (call_normalized_throws _ _ _ Herr Hstr).
        exists [OError "Cannot convert object to primitive value"].
        split; [by repeat constructor|]. split; [by repeat constructor|].
        destruct (reject_cases (h ++ [OError "Cannot convert object to primitive value"])
                    q t (VRef (length h))) as [(tf & tr & Ht & ->)|[Hno ->]].
        -- left. exists tf, tr, (Rejected (VRef (length h))), (VRef (length h)), tr.
           split; [done|]. split; [by right|]. split; [|split; [|done]].
           ++ cbn. rewrite length_app. cbn. lia.
           ++ intros [].
        -- right. by split.
      * rewrite (call_normalized_not_modelled _ _ _ Herr Hstr).
        exists []. rewrite app_nil_r. split; [constructor|]. split; [constructor|].
        right. split; [|done]. intros [].
Qed.

Lemma outcome_not_pending (h : list object) (hd : handler) (v : val)
    (tf tr : list reaction) :
  ¬ outcome h hd v (Pending tf tr).
Proof. inversion 1. Qed.

(** Once the target has settled, the link no longer depends on the queue. *)
Lemma link_settled_queue (h : list object) (q q' : list job)
    (src tgt : loc) (hf hr : handler) :
  link (State h q) src tgt hf hr →
  (∀ tf tr, h !! tgt ≠ Some (OPromise (Pending tf tr))) →
  link (State h q') src tgt hf hr.
Proof.
  intros (Hne & Hexcl & Hedge) Hset. split; [done|]. split; [exact Hexcl|].
  destruct Hedge as [frs rrs tf tr Hs Ht|v tf tr Hs Ht|r tf tr Hs Ht
                    |v st Hs Ht Ho|r st Hs Ht Ho]; cbn [heap] in *;
    try (by destruct (Hset _ _ Ht)).
  - by eapply edge_done_fulfilled.
  - by eapply edge_done_rejected.
Qed.

(** The job at the head of the queue that targets a pending promise at the
    end of a link is the job scheduled by the link. *)
Lemma link_head_job (h : list object) (j : job) (rest : list job)
    (src tgt : loc) (hf hr : handler) (tf tr : list reaction) :
  link (State h (j :: rest)) src tgt hf hr →
  job_for tgt j →
  h !! tgt = Some (OPromise (Pending tf tr)) →
  (∃ v, j = Job (Reaction hf tgt) v ∧ good_arg h hf v ∧
        h !! src = Some (OPromise (Fulfilled v))) ∨
  (∃ r, j = Job (Reaction hr tgt) r ∧ good_arg h hr r ∧
        h !! src = Some (OPromise (Rejected r))).
Proof.
  intros (_ & _ & Hedge) Hj Ht.
  destruct Hedge as [frs rrs tf' tr' Hs Ht' Hf Hr Hq|v tf' tr' Hs Ht' Hq Hg
                    |r tf' tr' Hs Ht' Hq Hg|v st Hs Ht' Ho|r st Hs Ht' Ho];
    cbn [heap queue] in *.
  - by rewrite filter_cons_True in Hq.
  - rewrite filter_cons_True in Hq by done. injection Hq as -> _. left. eauto.
  - rewrite filter_cons_True in Hq by done. injection Hq as -> _. right. eauto.
  - rewrite Ht in Ht'. injection Ht' as <-. by apply outcome_not_pending in Ho.
  - rewrite Ht in Ht'. injection Ht' as <-. by apply outcome_not_pending in Ho.
Qed.

(** The job scheduled by a link settles the target as its handler says. *)
Lemma link_settle_target (h : list object) (q : list job) (st : pstate)
    (src tgt : loc) (hf hr : handler) (tf tr : list reaction) :
  wf_state (State h q) →
  src ≠ tgt → exclusive (State h q) src tgt →
  h !! tgt = Some (OPromise (Pending tf tr)) →
  ((∃ v, h !! src = Some (OPromise (Fulfilled v)) ∧ outcome h hf v st) ∨
   (∃ r, h !! src = Some (OPromise (Rejected r)) ∧ outcome h hr r st)) →
  ∀ q', link (State (<[tgt := OPromise st]> h) q') src tgt hf hr.
Proof.
  intros Hwf Hne Hexcl Ht Hsrc q'.
  assert (Hlt : tgt < length h) by (by eapply lookup_lt_Some).
  assert (Hpres : preserved h (<[tgt := OPromise st]> h)) by (by eapply preserved_insert).
  assert (Hinert : reactions_of (OPromise st) = []).
  { destruct Hsrc as [(v & _ & Ho)|(r & _ & Ho)]; by destruct Ho. }
  split; [done|]. split.
  { eapply exclusive_insert; [exact Hexcl|]. intros _. rewrite Hinert. constructor. }
  destruct Hsrc as [(v & Hs & Ho)|(r & Hs & Ho)].
  - eapply edge_done_fulfilled; cbn [heap].
    + rewrite list_lookup_insert_ne by done. exact Hs.
    + by apply list_lookup_insert_eq.
    + eapply outcome_preserved; eauto.
      apply (wf_settled _ _ _ _ Hwf Hs). by left.
  - eapply edge_done_rejected; cbn [heap].
    + rewrite list_lookup_insert_ne by done. exact Hs.
    + by apply list_lookup_insert_eq.
    + eapply outcome_preserved; eauto.
      apply (wf_settled _ _ _ _ Hwf Hs). by right.
Qed.

(** Running the job at the head of the queue keeps a link, provided that a
    job settling the pending source hands over an argument the link's
    handler is ready for. *)
Lemma link_run_job (h : list object) (hd : handler) (t : loc) (arg : val)
    (rest : list job) (src tgt : loc) (hf hr : handler) :
  let j := Job (Reaction hd t) arg in
  wf_state (State h (j :: rest)) →
  link (State h (j :: rest)) src tgt hf hr →
  (t = src → (∃ tf tr, h !! src = Some (OPromise (Pending tf tr))) →
   ∀ h' st x,
     (good_arg h hd arg → outcome h' hd arg st) → value_wf h' x →
     (st = Fulfilled x → good_arg h' hf x) ∧ (st = Rejected x → good_arg h' hr x)) →
  link (run_job j (State h rest)) src tgt hf hr.
Proof.
  intros j Hwf Hlink Hside. unfold j in *. clear j.
  destruct (wf_pop _ _ _ Hwf) as [Hwf0 [_ Harg]]. cbn in Harg.
  destruct (run_job_cases h rest hd t arg Harg) as (ext & Hinert & Hext & Hcases).
  pose proof (wf_append _ _ _ Hwf0 Hext) as Hwf1.
  pose proof Hlink as (Hne & Hexcl & Hedge).
  destruct (edge_allocated _ _ _ _ _ Hedge) as [_ [tst Ht]]. cbn [heap] in Ht.
  destruct (decide (t = tgt)) as [->|Hnt].
  - (* the job is for the target *)
    destruct tst as [tf tr|w|w].
    + (* still pending: this is the job the link scheduled *)
      destruct (link_head_job _ _ _ _ _ _ _ _ _ Hlink eq_refl Ht)
        as [(v & Hj & Hg & Hs)|(r & Hj & Hg & Hs)];
        injection Hj as -> ->;
        (destruct Hcases as [(tf' & tr' & st & x & rs & Ht' & Hst & Hx & Ho & ->)|[Hno _]];
         [specialize (Ho Hg)|exfalso; eapply (Hno Hg); by apply lookup_old]).
      * apply link_settle_target with (q := rest) (tf := tf') (tr := tr'); eauto.
        { intros l o Hl Hls. cbn [heap] in Hl.
          apply lookup_app_Some in Hl as [Hl|[_ Hl]]; [by eapply Hexcl|].
          pose proof (Forall_lookup_1 _ _ _ _ Hinert Hl) as Hin.
          unfold inert in Hin. rewrite Hin. constructor. }
        left. exists v. split; [by apply lookup_old|done].
      * apply link_settle_target with (q := rest) (tf := tf') (tr := tr'); eauto.
        { intros l o Hl Hls. cbn [heap] in Hl.
          apply lookup_app_Some in Hl as [Hl|[_ Hl]]; [by eapply Hexcl|].
          pose proof (Forall_lookup_1 _ _ _ _ Hinert Hl) as Hin.
          unfold inert in Hin. rewrite Hin. constructor. }
        right. exists r. split; [by apply lookup_old|done].
    + (* already fulfilled: the job changes no promise *)
      assert (Hl : link (State (h ++ ext) rest) src tgt hf hr).
      { apply link_append; [done..|].
        eapply link_settled_queue; [exact Hlink|]. intros tf tr. by rewrite Ht. }
      destruct Hcases as [(tf' & tr' & st & x & rs & Ht' & _)|[_ ->]]; [|done].
      by rewrite (lookup_old _ _ _ _ Ht) in Ht'.
    + assert (Hl : link (State (h ++ ext) rest) src tgt hf hr).
      { apply link_append; [done..|].
        eapply link_settled_queue; [exact Hlink|]. intros tf tr. by rewrite Ht. }
      destruct Hcases as [(tf' & tr' & st & x & rs & Ht' & _)|[_ ->]]; [|done].
      by rewrite (lookup_old _ _ _ _ Ht) in Ht'.
  - (* the job is for another promise *)
    assert (Hl : link (State (h ++ ext) rest) src tgt hf hr).
    { apply link_append; [done..|]. eapply link_pop; [exact Hwf| |exact Hlink].
      unfold job_for. cbn. done. }
    destruct Hcases as [(tf' & tr' & st & x & rs & Ht' & Hst & Hx & Ho & ->)|[_ ->]];
      [|done].
    assert (Hpend : t = src → ∃ tf tr, h !! src = Some (OPromise (Pending tf tr))).
    { intros ->. destruct (edge_allocated _ _ _ _ _ Hedge) as [[sst Hs] _].
      cbn [heap] in Hs. rewrite (lookup_old _ _ _ _ Hs) in Ht'.
      injection Ht' as ->. eauto. }
    eapply link_settle; eauto.
    destruct Hst as [[-> ->]|[-> ->]]; [left|right];
      (split; [done|]); (split; [done|]); intros Hts;
      destruct (Hside Hts (Hpend Hts) _ _ x Ho Hx) as [Hf Hr]; eauto.
Qed.

Lemma link_fulfill (s : state) (t : loc) (v : val) (src tgt : loc) (hf hr : handler) :
  wf_state s → link s src tgt hf hr →
  unowned s t →
  (t = src → (∃ tf tr, heap s !! src = Some (OPromise (Pending tf tr))) →
   good_arg (heap s) hf v) →
  link (fulfill_promise t v s) src tgt hf hr.
Proof.
  intros Hwf Hlink Hun Hg. destruct s as [h q].
  destruct (fulfill_cases h q t v) as [(tf & tr & Ht & ->)|[_ ->]]; [|done].
  eapply link_settle; eauto.
  - intros ->. by eapply link_owned.
  - left. repeat split. intros ->. apply Hg; eauto.
Qed.

Lemma link_reject (s : state) (t : loc) (r : val) (src tgt : loc) (hf hr : handler) :
  wf_state s → link s src tgt hf hr →
  unowned s t →
  (t = src → (∃ tf tr, heap s !! src = Some (OPromise (Pending tf tr))) →
   good_arg (heap s) hr r) →
  link (reject_promise t r s) src tgt hf hr.
Proof.
  intros Hwf Hlink Hun Hg. destruct s as [h q].
  destruct (reject_cases h q t r) as [(tf & tr & Ht & ->)|[_ ->]]; [|done].
  eapply link_settle; eauto.
  - intros ->. by eapply link_owned.
  - right. repeat split. intros ->. apply Hg; eauto.
Qed.

Lemma good_arg_value (h : list object) (hd : handler) (v : val) :
  hd ≠ HIdentity → hd ≠ HWrapErrNormalized → value_wf h v → good_arg h hd v.
Proof. by destruct hd. Qed.

(** The chain built by [trySafe] survives every step. *)
Lemma chained_step (hr : handler) (p p1 p2 : loc) (s s' : state) :
  hr = HWrapErr →
  step s s' → chained hr p p1 p2 s → chained hr p p1 p2 s'.
Proof.
  intros -> Hstep (Hwf & H1 & H2).
  split; [by eapply wf_step|].
  destruct Hstep as [s s' Hrun|s t v Hun Hv _|s t r Hun Hr|s t f r d s' Hthen|s o Ho].
  - (* a job runs *)
    unfold run_next in Hrun. destruct s as [h [|[[hd t] arg] rest]]; [done|].
    cbn [queue heap] in Hrun. injection Hrun as <-.
    split.
    + apply link_run_job; [done..|].
      intros _ _ h' st x _ Hx. split; intros _; by apply good_arg_value.
    + apply link_run_job; [done..|].
      intros -> [tf [tr Hp1]] h' st x Ho Hx.
      destruct (link_head_job _ _ _ _ _ _ _ _ _ H1 eq_refl Hp1)
        as [(v & Hj & Hg & _)|(w & Hj & Hg & _)]; injection Hj as -> ->;
        specialize (Ho Hg).
      * inversion Ho as [| |? l Hl|]; subst. split; [|done].
        intros [= <-]. exists l, [("ok", VBool true); ("value", v)]. by repeat split.
      * inversion Ho; subst. split; [done|].
        intros [= <-]. by apply good_arg_value.
  - (* the program fulfils one of its promises *)
    split.
    + apply link_fulfill; [done..|]. intros _ _. by apply good_arg_value.
    + apply link_fulfill; [done..|]. intros -> (tf & tr & Hp1).
      exfalso. by apply (link_owned _ _ _ _ _ _ _ H1 Hp1).
  - (* the program rejects one of its promises *)
    split.
    + apply link_reject; [done..|]. intros _ _. by apply good_arg_value.
    + apply link_reject; [done..|]. intros _ _. by apply good_arg_value.
  - (* the program chains a reaction *)
    split; by eapply link_then.
  - (* the program allocates *)
    destruct s as [h q].
    assert (Hin : Forall inert [o]) by (repeat constructor; by destruct Ho).
    split; by apply link_append.
Qed.

Lemma chained_steps (hr : handler) (p p1 p2 : loc) (s s' : state) :
  hr = HWrapErr →
  rtc step s s' → chained hr p p1 p2 s → chained hr p p1 p2 s'.
Proof.
  intros Hhr Hsteps. induction Hsteps as [|s s1 s' Hstep _ IH]; [done|].
  intros Hc. apply IH. by eapply chained_step.
Qed.

(** ** The chain is established by [then] and [catch] *)

Lemma wf_targets_below (s : state) (l : loc) (o : object) :
  wf_state s → heap s !! l = Some o →
  Forall (λ rx, capability rx ≠ length (heap s)) (reactions_of o).
Proof.
  intros [Hh _] Hl. pose proof (Forall_lookup_1 _ _ _ _ Hh Hl) as Ho.
  destruct o as [| | |[frs rrs|v|v]]; cbn in *; try constructor.
  eapply Forall_impl; [exact Ho|]. intros rx. cbn. lia.
Qed.

Lemma wf_jobs_below (s : state) :
  wf_state s → filter (job_for (length (heap s))) (queue s) = [].
Proof.
  intros [_ Hq]. apply filter_none.
  eapply Forall_impl; [exact Hq|]. intros j [Hc _]. unfold job_for. lia.
Qed.

(** [then] on a promise of a well-formed state derives a fresh pending
    promise and links it to the source. *)
Lemma then_establishes_link (s : state) (p : loc) (st : pstate)
    (onF onR : option handler) :
  let d := length (heap s) in
  let hf := default HIdentity onF in
  let hr := default HThrower onR in
  wf_state s →
  heap s !! p = Some (OPromise st) →
  (∀ v, st = Fulfilled v → good_arg (heap s) hf v) →
  (∀ r, st = Rejected r → good_arg (heap s) hr r) →
  ∃ s', promise_then (VRef p) onF onR s = (Normal (VRef d), s') ∧
        link s' p d hf hr ∧
        length (heap s') = S d ∧
        heap s' !! d = Some (OPromise (Pending [] [])) ∧
        queue s `prefix_of` queue s'.
Proof.
  intros d hf hr Hwf Hp Hgf Hgr. subst d hf hr.
  assert (Hlt : p < length (heap s)) by (by eapply lookup_lt_Some).
  rewrite (promise_then_spec _ _ _ _ _ Hp). cbv zeta.
  eexists. split; [reflexivity|].
  assert (Hpres : preserved (heap s) (heap s ++ [OPromise (Pending [] [])]))
    by apply preserved_app.
  assert (Hexcl : ∀ q, exclusive (State (heap s ++ [OPromise (Pending [] [])]) q) p
                          (length (heap s))).
  { intros q l o Hl Hne. cbn [heap] in Hl.
    apply lookup_app_Some in Hl as [Hl|[_ Hl]]; [by eapply wf_targets_below|].
    apply list_lookup_singleton_Some in Hl as [_ <-]. constructor. }
  destruct st as [frs rrs|v|r]; cbn [heap queue].
  - split; [|split; [|split]].
    + split; [lia|]. split.
      { eapply exclusive_insert; [apply (Hexcl (queue s))|]. done. }
      pose proof (wf_targets_below _ _ _ Hwf Hp) as Hbelow. cbn [reactions_of] in Hbelow.
      apply Forall_app in Hbelow as [Hbf Hbr].
      eapply edge_waiting; cbn [heap queue].
      * apply list_lookup_insert_eq. rewrite length_app. cbn. lia.
      * rewrite list_lookup_insert_ne by lia. apply lookup_fresh.
      * rewrite filter_app, (filter_none _ frs), filter_cons_True, filter_nil; done.
      * rewrite filter_app, (filter_none _ rrs), filter_cons_True, filter_nil; done.
      * by apply wf_jobs_below.
    + rewrite length_insert, length_app. cbn. lia.
    + rewrite list_lookup_insert_ne by lia. apply lookup_fresh.
    + done.
  - split; [|split; [|split]].
    + split; [lia|]. split; [apply Hexcl|].
      eapply edge_queued_fulfilled; cbn [heap queue].
      * by apply lookup_old.
      * apply lookup_fresh.
      * rewrite filter_app, wf_jobs_below, filter_cons_True, filter_nil; done.
      * eapply good_arg_preserved; eauto.
    + rewrite length_app. cbn. lia.
    + apply lookup_fresh.
    + by apply prefix_app_r.
  - split; [|split; [|split]].
    + split; [lia|]. split; [apply Hexcl|].
      eapply edge_queued_rejected; cbn [heap queue].
      * by apply lookup_old.
      * apply lookup_fresh.
      * rewrite filter_app, wf_jobs_below, filter_cons_True, filter_nil; done.
      * eapply good_arg_preserved; eauto.
    + rewrite length_app. cbn. lia.
    + apply lookup_fresh.
    + by apply prefix_app_r.
Qed.

(** [source.then(wrapOk).catch(wrapErr)] on a promise of a well-formed
    state returns, without running any job, the pending promise at the end
    of the chain. *)
Lemma chain_established (hr : handler) (s1 : state) (p : loc) (st : pstate) :
  hr = HWrapErr →
  wf_state s1 →
  heap s1 !! p = Some (OPromise st) →
  let p1 := length (heap s1) in
  let p2 := S p1 in
  ∃ s2, (let! chained := promise_then (VRef p) (Some HWrapOk) None in
         promise_catch chained hr) s1 = (Normal (VRef p2), s2) ∧
        chained hr p p1 p2 s2 ∧
        heap s2 !! p2 = Some (OPromise (Pending [] [])) ∧
        queue s1 `prefix_of` queue s2.
Proof.
  intros Hhr Hwf Hp p1 p2.
  destruct (then_establishes_link s1 p st (Some HWrapOk) None Hwf Hp)
    as (s1' & Hthen1 & Hlink1 & Hlen1 & Hp1 & Hq1).
  { intros v ->. cbn. apply (wf_settled _ _ _ _ Hwf Hp). by left. }
  { intros r ->. cbn. apply (wf_settled _ _ _ _ Hwf Hp). by right. }
  cbn [default] in *. fold p1 in Hthen1, Hlink1, Hlen1, Hp1.
  pose proof (wf_then _ _ _ _ _ _ Hwf Hthen1) as Hwf1.
  destruct (then_establishes_link s1' p1 (Pending [] []) None (Some hr) Hwf1 Hp1)
    as (s2 & Hthen2 & Hlink2 & Hlen2 & Hp2 & Hq2); [done..|].
  cbn [default] in *. rewrite Hlen1 in Hthen2, Hlink2, Hp2. fold p2 in Hthen2, Hlink2, Hp2.
  pose proof (wf_then _ _ _ _ _ _ Hwf1 Hthen2) as Hwf2.
  exists s2. split; [|split; [|split]].
  - rewrite (bind_Normal _ _ _ _ _ Hthen1). exact Hthen2.
  - split; [done|]. split; [|done].
    exact (link_then _ _ _ _ _ _ _ _ _ _ Hwf1 Hlink1 Hthen2).
  - done.
  - by etrans.
Qed.

(** ** What the chain guarantees *)

Lemma promise_state_Some (s : state) (p : loc) (st : pstate) :
  promise_state s p = Some st ↔ heap s !! p = Some (OPromise st).
Proof.
  unfold promise_state. split.
  - destruct (heap s !! p) as [[| | |st']|]; try discriminate. by intros [= ->].
  - by intros ->.
Qed.

(** While the source is pending, so is the returned promise. *)
Lemma chained_pending (hr : handler) (p p1 p2 : loc) (s : state) (tf tr : list reaction) :
  chained hr p p1 p2 s →
  heap s !! p = Some (OPromise (Pending tf tr)) →
  ∃ tf' tr', heap s !! p2 = Some (OPromise (Pending tf' tr')).
Proof.
  intros (_ & (_ & _ & E1) & (_ & _ & E2)) Hp.
  destruct E1 as [frs rrs tf1 tr1 _ Hp1|? ? ? Hs|? ? ? Hs|? ? Hs|? ? Hs];
    try (rewrite Hp in Hs; discriminate).
  destruct E2 as [? ? tf2 tr2 _ Hp2|? ? ? Hs|? ? ? Hs|? ? Hs|? ? Hs];
    try (rewrite Hp1 in Hs; discriminate).
  eauto.
Qed.

(** The returned promise is never rejected. *)
Lemma chained_never_rejected (hr : handler) (p p1 p2 : loc) (s : state) (r : val) :
  hr = HWrapErr →
  chained hr p p1 p2 s →
  heap s !! p2 ≠ Some (OPromise (Rejected r)).
Proof.
  intros -> (_ & _ & (_ & _ & E2)) Hp2.
  destruct E2 as [? ? ? ? _ Ht|? ? ? _ Ht|? ? ? _ Ht|? ? _ Ht Ho|? ? _ Ht Ho];
    rewrite Hp2 in Ht; try discriminate; injection Ht as <-.
  - inversion Ho.
  - inversion Ho.
Qed.

(** When the queue is empty and the source has been fulfilled, the returned
    promise has been fulfilled with a success record around the value. *)
Lemma chained_quiescent_fulfilled (hr : handler) (p p1 p2 : loc) (s : state) (v : val) :
  chained hr p p1 p2 s →
  queue s = [] →
  heap s !! p = Some (OPromise (Fulfilled v)) →
  ∃ l, heap s !! p2 = Some (OPromise (Fulfilled (VRef l))) ∧
       heap s !! l = Some (OPlain [("ok", VBool true); ("value", v)]).
Proof.
  intros (_ & (_ & _ & E1) & (_ & _ & E2)) Hq Hp.
  destruct E1 as [? ? ? ? Hs|? ? ? Hs _ Hj|? ? ? Hs|v' st1 Hs Hp1 Ho1|? ? Hs];
    rewrite Hp in Hs; try discriminate.
  { by rewrite Hq in Hj. }
  injection Hs as <-. inversion Ho1 as [| |? l Hl|]; subst.
  destruct E2 as [? ? ? ? Hs|? ? ? Hs _ Hj|? ? ? Hs|v' st2 Hs Hp2 Ho2|? ? Hs];
    rewrite Hp1 in Hs; try discriminate.
  { by rewrite Hq in Hj. }
  injection Hs as <-. inversion Ho2; subst. eauto.
Qed.

(** When the queue is empty and the source has been rejected, the returned
    promise has been fulfilled with what the [catch] handler made of the
    reason. *)
Lemma chained_quiescent_rejected (hr : handler) (p p1 p2 : loc) (s : state) (r : val) :
  chained hr p p1 p2 s →
  queue s = [] →
  heap s !! p = Some (OPromise (Rejected r)) →
  ∃ st, heap s !! p2 = Some (OPromise st) ∧ outcome (heap s) hr r st.
Proof.
  intros (_ & (_ & _ & E1) & (_ & _ & E2)) Hq Hp.
  destruct E1 as [? ? ? ? Hs|? ? ? Hs|? ? ? Hs _ Hj|? ? Hs|r' st1 Hs Hp1 Ho1];
    rewrite Hp in Hs; try discriminate.
  { by rewrite Hq in Hj. }
  injection Hs as <-. inversion Ho1; subst.
  destruct E2 as [? ? ? ? Hs|? ? ? Hs|? ? ? Hs _ Hj|? ? Hs|r' st2 Hs Hp2 Ho2];
    rewrite Hp1 in Hs; try discriminate.
  { by rewrite Hq in Hj. }
  injection Hs as <-. eauto.
Qed.

(** ** The event loop terminates *)

Lemma reactions_sum_app (h ext : list object) :
  Forall inert ext →
  sum_list (map (λ o, length (reactions_of o)) (h ++ ext)) =
  sum_list (map (λ o, length (reactions_of o)) h).
Proof.
  intros Hext. induction h as [|o h IH]; cbn.
  - induction Hext as [|o ext Ho _ IH]; [done|]. cbn. unfold inert in Ho.
    by rewrite Ho.
  - by rewrite IH.
Qed.

Lemma reactions_sum_insert (h : list object) (t : loc) (o o' : object) :
  h !! t = Some o →
  sum_list (map (λ o, length (reactions_of o)) (<[t := o']> h)) + length (reactions_of o) =
  sum_list (map (λ o, length (reactions_of o)) h) + length (reactions_of o').
Proof.
  revert t. induction h as [|x h IH]; intros [|t] Ht; try done.
  - cbn in Ht. injection Ht as ->.
    change (<[0 := o']> (o :: h)) with (o' :: h).
    cbn [map sum_list_with]. unfold id in *. lia.
  - cbn in Ht. specialize (IH t Ht).
    change (<[S t := o']> (x :: h)) with (x :: <[t := o']> h).
    cbn [map sum_list_with]. unfold id in *. lia.
Qed.

(** Every job that runs shrinks the backlog. *)
Lemma backlog_run_next (s s' : state) :
  wf_state s → run_next s = Some s' → backlog s' < backlog s.
Proof.
  intros Hwf Hrun. unfold run_next in Hrun.
  destruct s as [h [|[[hd t] arg] rest]]; [done|].
  cbn [queue heap] in Hrun. injection Hrun as <-.
  destruct (wf_pop _ _ _ Hwf) as [_ [_ Harg]]. cbn in Harg.
  destruct (run_job_cases h rest hd t arg Harg) as (ext & Hinert & _ & Hcases).
  unfold backlog at 2. cbn [heap queue length].
  destruct Hcases as [(tf & tr & st & x & rs & Ht & Hst & _ & _ & ->)|[_ ->]];
    unfold backlog; cbn [heap queue].
  - pose proof (reactions_sum_insert _ _ _ (OPromise st) Ht) as Hsum.
    rewrite reactions_sum_app in Hsum by done.
    rewrite length_app, length_map.
    cbn [reactions_of] in Hsum. rewrite length_app in Hsum.
    destruct Hst as [[-> ->]|[-> ->]]; cbn [reactions_of length] in Hsum; lia.
  - rewrite reactions_sum_app by done. lia.
Qed.

Lemma drain_reachable (n : nat) (s : state) : rtc step s (drain n s).
Proof.
  revert s. induction n as [|n IH]; intros s; cbn; [done|].
  destruct (run_next s) as [s'|] eqn:Hrun; [|done].
  eapply rtc_l; [by apply step_job|apply IH].
Qed.

(** Enough fuel empties the queue. *)
Lemma drain_quiescent (n : nat) (s : state) :
  wf_state s → backlog s ≤ n → queue (drain n s) = [].
Proof.
  revert s. induction n as [|n IH]; intros s Hwf Hn.
  - cbn. unfold backlog in Hn. destruct (queue s); [done|]. cbn in Hn. lia.
  - cbn. destruct (run_next s) as [s'|] eqn:Hrun.
    + apply IH.
      * eapply wf_step; [by apply step_job|done].
      * pose proof (backlog_run_next _ _ Hwf Hrun). lia.
    + unfold run_next in Hrun. by destruct (queue s).
Qed.

(** A settled promise keeps its state. *)
Lemma settled_step (s s' : state) (p : loc) (st : pstate) :
  wf_state s → step s s' →
  heap s !! p = Some (OPromise st) →
  (∀ tf tr, st ≠ Pending tf tr) →
  heap s' !! p = Some (OPromise st).
Proof.
  intros Hwf Hstep Hp Hst.
  destruct Hstep as [s s' Hrun|s t v _ _ _|s t r _ _|s t f r d s' Hthen|s o _].
  - unfold run_next in Hrun. destruct s as [h [|[[hd t] arg] rest]]; [done|].
    cbn [queue heap] in *. injection Hrun as <-.
    destruct (wf_pop _ _ _ Hwf) as [_ [_ Harg]]. cbn in Harg.
    destruct (run_job_cases h rest hd t arg Harg) as (ext & _ & _ & Hcases).
    destruct Hcases as [(tf & tr & st' & x & rs & Ht & _ & _ & _ & ->)|[_ ->]];
      cbn [heap]; [|by apply lookup_old].
    rewrite list_lookup_insert_ne; [by apply lookup_old|].
    intros ->. rewrite (lookup_old _ _ _ _ Hp) in Ht. injection Ht as ->. by eapply Hst.
  - destruct s as [h q]. cbn [heap] in *.
    destruct (fulfill_cases h q t v) as [(tf & tr & Ht & ->)|[_ ->]]; [|done].
    cbn [heap]. rewrite list_lookup_insert_ne; [done|].
    intros ->. rewrite Hp in Ht. injection Ht as ->. by eapply Hst.
  - destruct s as [h q]. cbn [heap] in *.
    destruct (reject_cases h q t r) as [(tf & tr & Ht & ->)|[_ ->]]; [|done].
    cbn [heap]. rewrite list_lookup_insert_ne; [done|].
    intros ->. rewrite Hp in Ht. injection Ht as ->. by eapply Hst.
  - destruct (heap s !! t) as [[| | |st']|] eqn:Ht;
      try (unfold promise_then, bind, get_heap in Hthen; rewrite Ht in Hthen; discriminate).
    rewrite (promise_then_spec _ _ _ _ _ Ht) in Hthen. cbv zeta in Hthen.
    injection Hthen as _ <-.
    destruct st' as [tf tr|w|w]; cbn [heap]; try by apply lookup_old.
    rewrite list_lookup_insert_ne; [by apply lookup_old|].
    intros ->. rewrite Hp in Ht. injection Ht as ->. by eapply Hst.
  - cbn [heap]. by apply lookup_old.
Qed.

Lemma settled_steps (s s' : state) (p : loc) (st : pstate) :
  wf_state s → rtc step s s' →
  heap s !! p = Some (OPromise st) →
  (∀ tf tr, st ≠ Pending tf tr) →
  heap s' !! p = Some (OPromise st).
Proof.
  intros Hwf Hsteps. induction Hsteps as [|s s1 s' Hstep _ IH]; [done|].
  intros Hp Hst. apply IH; [by eapply wf_step| |done]. by eapply settled_step.
Qed.

(** Draining the queue of a chained state: the queue empties, the chain
    holds, and what had settled stays settled. *)
Lemma chained_drain (hr : handler) (p p1 p2 : loc) (s : state) :
  hr = HWrapErr →
  chained hr p p1 p2 s →
  let s' := drain (backlog s) s in
  queue s' = [] ∧ chained hr p p1 p2 s' ∧
  ∀ l st, heap s !! l = Some (OPromise st) → (∀ tf tr, st ≠ Pending tf tr) →
          heap s' !! l = Some (OPromise st).
Proof.
  intros Hhr Hc s'. pose proof Hc as (Hwf & _).
  pose proof (drain_reachable (backlog s) s) as Hreach.
  split; [by apply drain_quiescent|]. split; [by eapply chained_steps|].
  intros l st Hl Hst. by eapply settled_steps.
Qed.

(** ** [trySafe], call by call *)

Lemma trySafe_throw (fn : M val) (s s1 : state) (e : val) :
  fn s = (Throw e, s1) →
  trySafe fn s =
  (Normal (VRef (length (heap s1))),
   State (heap s1 ++ [OPlain [("ok", VBool false); ("error", e)]]) (queue s1)).
Proof.
  intros Hfn. unfold trySafe, try_catch.
  by rewrite (bind_Throw _ _ _ _ _ Hfn).
Qed.

Lemma trySafe_value (fn : M val) (s s1 : state) (v : val) :
  fn s = (Normal v, s1) →
  instanceof_Promise (heap s1) v = false →
  trySafe fn s =
  (Normal (VRef (length (heap s1))),
   State (heap s1 ++ [OPlain [("ok", VBool true); ("value", v)]]) (queue s1)).
Proof.
  intros Hfn Hv. unfold trySafe, try_catch.
  rewrite (bind_Normal _ _ _ _ _ Hfn). cbn beta.
  unfold bind at 1, get_heap at 1. by rewrite Hv.
Qed.

Lemma trySafe_promise (fn : M val) (s s1 s2 : state) (p : loc) (d : val) :
  fn s = (Normal (VRef p), s1) →
  instanceof_Promise (heap s1) (VRef p) = true →
  (let! chained := promise_then (VRef p) (Some HWrapOk) None in
   promise_catch chained HWrapErr) s1 = (Normal d, s2) →
  trySafe fn s = (Normal d, s2).
Proof.
  intros Hfn Hp Hchain. unfold trySafe, try_catch.
  rewrite (bind_Normal _ _ _ _ _ Hfn). cbn beta.
  unfold bind at 1, get_heap at 1. by rewrite Hp, Hchain.
Qed.

Lemma Historical_trySafe_throw_Error (fn : M val) (s s1 : state) (e : val) :
  fn s = (Throw e, s1) →
  instanceof_Error (heap s1) e = true →
  Historical.trySafe fn s =
  Some (Normal (VRef (length (heap s1))),
        State (heap s1 ++ [OPlain [("ok", VBool false); ("error", e)]]) (queue s1)).
Proof.
  intros Hfn He. unfold Historical.trySafe, p_try_catch, lift.
  rewrite (bind_Throw _ _ _ _ _ Hfn).
  unfold pbind, normalize_error, pbind, lift, get_heap. by rewrite He.
Qed.

Lemma Historical_trySafe_throw_converted (fn : M val) (s s1 : state) (e : val)
    (m : string) :
  fn s = (Throw e, s1) →
  instanceof_Error (heap s1) e = false →
  to_string (heap s1) e = Converted m →
  Historical.trySafe fn s =
  Some (Normal (VRef (S (length (heap s1)))),
        State (heap s1 ++ [OError m;
                           OPlain [("ok", VBool false);
                                   ("error", VRef (length (heap s1)))]])
              (queue s1)).
Proof.
  intros Hfn He Hm. unfold Historical.trySafe, p_try_catch, lift.
  rewrite (bind_Throw _ _ _ _ _ Hfn).
  unfold pbind, normalize_error, String_call, pbind, lift, get_heap.
  rewrite He. cbn [heap]. rewrite Hm.
  unfold new_Error, alloc, bind, alloc_loc, ret, object_literal, alloc, bind, alloc_loc, ret.
  cbn [heap queue]. rewrite length_app, <- app_assoc. cbn [length app].
  by rewrite Nat.add_1_r.
Qed.

Lemma Historical_trySafe_throw_throws (fn : M val) (s s1 : state) (e : val) :
  fn s = (Throw e, s1) →
  instanceof_Error (heap s1) e = false →
  to_string (heap s1) e = ConversionThrows →
  Historical.trySafe fn s =
  Some (Throw (VRef (length (heap s1))),
        State (heap s1 ++ [OError "Cannot convert object to primitive value"])
              (queue s1)).
Proof.
  intros Hfn He Hm. unfold Historical.trySafe, p_try_catch, lift.
  rewrite (bind_Throw _ _ _ _ _ Hfn).
  unfold pbind, normalize_error, String_call, pbind, lift, get_heap.
  rewrite He. cbn [heap]. by rewrite Hm.
Qed.

Lemma Historical_trySafe_throw_not_modelled (fn : M val) (s s1 : state) (e : val) :
  fn s = (Throw e, s1) →
  instanceof_Error (heap s1) e = false →
  to_string (heap s1) e = NotModelled →
  Historical.trySafe fn s = None.
Proof.
  intros Hfn He Hm. unfold Historical.trySafe, p_try_catch, lift.
  rewrite (bind_Throw _ _ _ _ _ Hfn).
  unfold pbind, normalize_error, String_call, pbind, lift, get_heap.
  rewrite He. cbn [heap]. by rewrite Hm.
Qed.



(** Without any assumption on the state: on a promise, the chain returns a
    fresh pending promise. *)
Lemma chain_returns_pending (hr : handler) (s1 : state) (p : loc) (st : pstate) :
  heap s1 !! p = Some (OPromise st) →
  ∃ s2, (let! chained := promise_then (VRef p) (Some HWrapOk) None in
         promise_catch chained hr) s1 = (Normal (VRef (S (length (heap s1)))), s2) ∧
        heap s2 !! S (length (heap s1)) = Some (OPromise (Pending [] [])).
Proof.
  intros Hp.
  assert (Hlt : p < length (heap s1)) by (by eapply lookup_lt_Some).
  rewrite (bind_Normal _ _ _ _ _ (promise_then_spec _ _ _ _ _ Hp)). cbv zeta.
  unfold promise_catch.
  set (s1' := match st with Pending _ _ => _ | Fulfilled _ => _ | Rejected _ => _ end).
  assert (Hlen : length (heap s1') = S (length (heap s1))).
  { unfold s1'. destruct st; cbn [heap]; rewrite ?length_insert, length_app; cbn; lia. }
  assert (Hp1 : heap s1' !! length (heap s1) = Some (OPromise (Pending [] []))).
  { unfold s1'. destruct st; cbn [heap];
      rewrite ?list_lookup_insert_ne by lia; apply lookup_fresh. }
  rewrite (promise_then_spec _ _ _ _ _ Hp1). cbv zeta. rewrite Hlen.
  eexists. split; [reflexivity|]. cbn [heap].
  rewrite list_lookup_insert_ne by lia. rewrite <- Hlen. apply lookup_fresh.
Qed.

Lemma step_preserved (s s' : state) :
  wf_state s → step s s' → preserved (heap s) (heap s').
Proof.
  intros Hwf Hstep.
  destruct Hstep as [s s' Hrun|s t v _ _ _|s t r _ _|s t f r d s' Hthen|s o _].
  - unfold run_next in Hrun. destruct s as [h [|[[hd t] arg] rest]]; [done|].
    cbn [queue heap] in *. injection Hrun as <-.
    destruct (wf_pop _ _ _ Hwf) as [_ [_ Harg]]. cbn in Harg.
    destruct (run_job_cases h rest hd t arg Harg) as (ext & _ & _ & Hcases).
    destruct Hcases as [(tf & tr & st' & x & rs & Ht & _ & _ & _ & ->)|[_ ->]];
      cbn [heap]; [|apply preserved_app].
    eapply preserved_trans; [apply preserved_app|by eapply preserved_insert].
  - destruct s as [h q]. cbn [heap].
    destruct (fulfill_cases h q t v) as [(tf & tr & Ht & ->)|[_ ->]];
      [by eapply preserved_insert|apply preserved_refl].
  - destruct s as [h q]. cbn [heap].
    destruct (reject_cases h q t r) as [(tf & tr & Ht & ->)|[_ ->]];
      [by eapply preserved_insert|apply preserved_refl].
  - destruct (heap s !! t) as [[| | |st']|] eqn:Ht;
      try (unfold promise_then, bind, get_heap in Hthen; rewrite Ht in Hthen; discriminate).
    rewrite (promise_then_spec _ _ _ _ _ Ht) in Hthen. cbv zeta in Hthen.
    injection Hthen as _ <-.
    destruct st' as [tf tr|w|w]; cbn [heap]; try apply preserved_app.
    eapply preserved_trans; [apply preserved_app|].
    eapply preserved_insert. by apply lookup_old.
  - cbn [heap]. apply preserved_app.
Qed.

Lemma steps_preserved (s s' : state) :
  wf_state s → rtc step s s' → preserved (heap s) (heap s').
Proof.
  intros Hwf Hsteps. induction Hsteps as [|s s1 s' Hstep _ IH]; [apply preserved_refl|].
  eapply preserved_trans; [by apply step_preserved|].
  apply IH. by eapply wf_step.
Qed.

(** From any state that the program and the event loop can reach after the
    chain was built, draining the queue settles the returned promise as the
    source has settled. *)
Lemma chain_run (hr : handler) (p p1 p2 : loc) (s2 s' : state) :
  hr = HWrapErr →
  chained hr p p1 p2 s2 →
  rtc step s2 s' →
  let s'' := drain (backlog s') s' in
  queue s'' = [] ∧ preserved (heap s') (heap s'') ∧
  (∀ v, heap s' !! p = Some (OPromise (Fulfilled v)) →
        ∃ l, heap s'' !! p2 = Some (OPromise (Fulfilled (VRef l))) ∧
             heap s'' !! l = Some (OPlain [("ok", VBool true); ("value", v)])) ∧
  (∀ r, heap s' !! p = Some (OPromise (Rejected r)) →
        ∃ st, heap s'' !! p2 = Some (OPromise st) ∧ outcome (heap s'') hr r st).
Proof.
  intros Hhr Hc Hsteps s''.
  pose proof (chained_steps _ _ _ _ _ _ Hhr Hsteps Hc) as Hc'.
  destruct (chained_drain _ _ _ _ _ Hhr Hc') as (Hq & Hc'' & Hkeep).
  fold s'' in Hq, Hc'', Hkeep.
  split; [done|]. split.
  { apply steps_preserved; [by destruct Hc'|apply drain_reachable]. }
  split.
  - intros v Hp. eapply chained_quiescent_fulfilled; eauto.
  - intros r Hp. eapply chained_quiescent_rejected; eauto.
Qed.

(** ** The claims about [trySafe] *)

(** C1: when the callable throws, [trySafe] catches the thrown value and
    returns a failure record at once; when the callable returns a value that
    is not a promise, it returns a success record around that value at once.
    In both cases the state the callable left only gains the record: no
    promise is created and no job is queued. *)
Theorem trySafe_sync (fn : M val) (s s1 : state) :
  (∀ e, fn s = (Throw e, s1) →
        trySafe fn s =
        (Normal (VRef (length (heap s1))),
         State (heap s1 ++ [OPlain [("ok", VBool false); ("error", e)]]) (queue s1))) ∧
  (∀ v, fn s = (Normal v, s1) →
        instanceof_Promise (heap s1) v = false →
        trySafe fn s =
        (Normal (VRef (length (heap s1))),
         State (heap s1 ++ [OPlain [("ok", VBool true); ("value", v)]]) (queue s1))).
Proof.
  split.
  - intros e Hfn. by apply trySafe_throw.
  - intros v Hfn Hv. by apply trySafe_value.
Qed.

Lemma trySafe_sync_witness :
  trySafe (throw (VString "boom")) (State [] []) =
    (Normal (VRef 0),
     State [OPlain [("ok", VBool false); ("error", VString "boom")]] []) ∧
  trySafe (ret (VNumber 42)) (State [] []) =
    (Normal (VRef 0),
     State [OPlain [("ok", VBool true); ("value", VNumber 42)]] []).
Proof.
  split.
  - apply (proj1 (trySafe_sync (throw (VString "boom")) (State [] []) (State [] []))
             (VString "boom")).
    reflexivity.
  - apply (proj2 (trySafe_sync (ret (VNumber 42)) (State [] []) (State [] []))
             (VNumber 42)); reflexivity.
Defined.

(** C2: when the callable returns a promise, [trySafe] returns at once,
    without running any job, a promise that is pending.  In every state
    reached afterwards that promise is never rejected and stays pending while
    the source is pending; once the source is fulfilled with [v] (resp.
    rejected with [r]), draining the job queue terminates and leaves the
    returned promise fulfilled with the record [{ ok: true, value: v }]
    (resp. [{ ok: false, error: r }]). *)
Theorem trySafe_async (fn : M val) (s s1 : state) (p : loc) :
  fn s = (Normal (VRef p), s1) →
  instanceof_Promise (heap s1) (VRef p) = true →
  wf_state s1 →
  ∃ p2 s2,
    trySafe fn s = (Normal (VRef p2), s2) ∧
    promise_state s2 p2 = Some (Pending [] []) ∧
    queue s1 `prefix_of` queue s2 ∧
    ∀ s', rtc step s2 s' →
      (∀ r, promise_state s' p2 ≠ Some (Rejected r)) ∧
      (∀ tf tr, promise_state s' p = Some (Pending tf tr) →
                ∃ tf' tr', promise_state s' p2 = Some (Pending tf' tr')) ∧
      (∀ v, promise_state s' p = Some (Fulfilled v) →
            let s'' := drain (backlog s') s' in
            queue s'' = [] ∧
            ∃ l, promise_state s'' p2 = Some (Fulfilled (VRef l)) ∧
                 heap s'' !! l = Some (OPlain [("ok", VBool true); ("value", v)])) ∧
      (∀ r, promise_state s' p = Some (Rejected r) →
            let s'' := drain (backlog s') s' in
            queue s'' = [] ∧
            ∃ l, promise_state s'' p2 = Some (Fulfilled (VRef l)) ∧
                 heap s'' !! l = Some (OPlain [("ok", VBool false); ("error", r)])).
Proof.
  intros Hfn Hinst Hwf.
  destruct (instanceof_Promise_inv _ _ Hinst) as (p' & st & [= <-] & Hp).
  destruct (chain_established HWrapErr s1 p st ltac:(done) Hwf Hp)
    as (s2 & Hchain & Hc & Hp2 & Hpre).
  exists (S (length (heap s1))), s2.
  split; [by eapply trySafe_promise|].
  split; [by apply promise_state_Some|]. split; [done|].
  intros s' Hsteps.
  pose proof (chained_steps HWrapErr _ _ _ _ _ ltac:(done) Hsteps Hc) as Hc'.
  destruct (chain_run HWrapErr _ _ _ _ _ ltac:(done) Hc Hsteps) as (Hq & _ & Hful & Hrej).
  split; [|split; [|split]].
  - intros r Hr%promise_state_Some. revert Hr.
    apply (chained_never_rejected HWrapErr p (length (heap s1))); auto.
  - intros tf tr Hpend%promise_state_Some.
    destruct (chained_pending _ _ _ _ _ _ _ Hc' Hpend) as (tf' & tr' & H2).
    exists tf', tr'. by apply promise_state_Some.
  - intros v Hv%promise_state_Some s''. split; [done|].
    destruct (Hful v Hv) as (l & H2 & Hl). exists l.
    split; [by apply promise_state_Some|done].
  - intros r Hr%promise_state_Some s''. split; [done|].
    destruct (Hrej r Hr) as (st' & H2 & Ho). inversion Ho as [| | |? l Hl]; subst.
    exists l. split; [by apply promise_state_Some|done].
Qed.

Lemma wf_state_single_promise (st : pstate) :
  object_wf [OPromise st] (OPromise st) →
  wf_state (State [OPromise st] []).
Proof. intros H. split; cbn [heap queue]; by repeat constructor. Qed.

Lemma trySafe_async_witness :
  let fn := alloc (OPromise (Pending [] [])) in
  let s1 := State [OPromise (Pending [] [])] [] in
  fn (State [] []) = (Normal (VRef 0), s1) ∧
  instanceof_Promise (heap s1) (VRef 0) = true ∧
  wf_state s1 ∧
  ∃ p2 s2, trySafe fn (State [] []) = (Normal (VRef p2), s2) ∧
           promise_state s2 p2 = Some (Pending [] []).
Proof.
  intros fn s1.
  assert (Hwf : wf_state s1) by (apply wf_state_single_promise; constructor).
  split; [reflexivity|]. split; [reflexivity|]. split; [exact Hwf|].
  destruct (trySafe_async fn (State [] []) s1 0 eq_refl eq_refl Hwf)
    as (p2 & s2 & Hret & Hpend & _).
  exists p2, s2. by split.
Defined.

(** C3: the exported [trySafe] keeps the raised value as it is.  When the
    callable throws [e], the failure record's [error] is [e] itself, and
    every object of the heap, the one [e] may refer to included, is left as
    it was.  When the callable returns a promise that is later rejected with
    [r], the record that fulfils the returned promise has [r] itself as its
    [error], whatever kind of value [r] is. *)
Theorem trySafe_preserves_raw (fn : M val) (s s1 : state) :
  (∀ e, fn s = (Throw e, s1) →
        ∃ l s2, trySafe fn s = (Normal (VRef l), s2) ∧
                get_prop (VRef l) "ok" s2 = (Normal (VBool false), s2) ∧
                get_prop (VRef l) "error" s2 = (Normal e, s2) ∧
                ∀ l' o, heap s1 !! l' = Some o → heap s2 !! l' = Some o) ∧
  (∀ p, fn s = (Normal (VRef p), s1) →
        instanceof_Promise (heap s1) (VRef p) = true →
        wf_state s1 →
        ∃ p2 s2, trySafe fn s = (Normal (VRef p2), s2) ∧
          ∀ s' r, rtc step s2 s' →
                  promise_state s' p = Some (Rejected r) →
                  let s'' := drain (backlog s') s' in
                  preserved (heap s') (heap s'') ∧
                  ∃ l, promise_state s'' p2 = Some (Fulfilled (VRef l)) ∧
                       get_prop (VRef l) "ok" s'' = (Normal (VBool false), s'') ∧
                       get_prop (VRef l) "error" s'' = (Normal r, s'')).
Proof.
  split.
  - intros e Hfn. eexists _, _. split; [by apply trySafe_throw|].
    rewrite !get_prop_fresh. repeat split. intros l' o Hl. by apply lookup_old.
  - intros p Hfn Hinst Hwf.
    destruct (instanceof_Promise_inv _ _ Hinst) as (p' & st & [= <-] & Hp).
    destruct (chain_established HWrapErr s1 p st ltac:(done) Hwf Hp)
      as (s2 & Hchain & Hc & _).
    exists (S (length (heap s1))), s2. split; [by eapply trySafe_promise|].
    intros s' r Hsteps Hr%promise_state_Some s''.
    destruct (chain_run HWrapErr _ _ _ _ _ ltac:(done) Hc Hsteps) as (_ & Hpres & _ & Hrej).
    split; [done|].
    destruct (Hrej r Hr) as (st' & H2 & Ho). inversion Ho as [| | |? l Hl]; subst.
    exists l. split; [by apply promise_state_Some|].
    by rewrite !(get_prop_plain _ _ _ _ Hl).
Qed.

Lemma trySafe_preserves_raw_witness :
  (∃ l s2,
     trySafe (let! e := object_literal [("code", VNumber 404)] in throw e) (State [] [])
       = (Normal (VRef l), s2) ∧
     get_prop (VRef l) "error" s2 = (Normal (VRef 0), s2) ∧
     heap s2 !! 0 = Some (OPlain [("code", VNumber 404)])) ∧
  (let s1 := State [OPromise (Rejected (VString "async string fail"))] [] in
   wf_state s1 ∧
   ∃ p2 s2,
     trySafe (alloc (OPromise (Rejected (VString "async string fail")))) (State [] [])
       = (Normal (VRef p2), s2) ∧
     ∃ l, promise_state (drain (backlog s2) s2) p2 = Some (Fulfilled (VRef l)) ∧
          get_prop (VRef l) "error" (drain (backlog s2) s2)
            = (Normal (VString "async string fail"), drain (backlog s2) s2)).
Proof.
  split.
  - destruct (proj1 (trySafe_preserves_raw
                       (let! e := object_literal [("code", VNumber 404)] in throw e)
                       (State [] []) (State [OPlain [("code", VNumber 404)]] []))
                (VRef 0) eq_refl) as (l & s2 & Hret & _ & Herr & Hkeep).
    exists l, s2. split; [done|]. split; [done|]. by apply Hkeep.
  - intros s1.
    assert (Hwf : wf_state s1) by (apply wf_state_single_promise; exact I).
    split; [exact Hwf|].
    destruct (proj2 (trySafe_preserves_raw
                       (alloc (OPromise (Rejected (VString "async string fail"))))
                       (State [] []) s1) 0 eq_refl eq_refl Hwf)
      as (p2 & s2 & Hret & Hrun).
    exists p2, s2. split; [done|].
    destruct (Hrun s2 (VString "async string fail") (rtc_refl _ _)) as (_ & l & H2 & _ & He).
    { apply promise_state_Some.
      unfold trySafe in Hret. vm_compute in Hret. injection Hret as _ <-. reflexivity. }
    exists l. by split.
Defined.

(** C4: the claim fails where [String] of the raised value throws, and the
    code breaks its own contract there (the earlier version documents that
    it captures any exception and returns a Result).  The callable
    [() => { throw { toString: 1 } }] makes the exported version return a
    failure around the thrown object, and makes the earlier version throw
    the [TypeError] of the conversion instead of returning a failure around
    [new Error(String(raisedValue))].  With
    [() => Promise.reject({ toString: 1 })] the promise that the exported
    version returns is fulfilled with a failure around the object, and the
    promise that the earlier version returns is rejected with the
    [TypeError]. *)
Theorem Historical_trySafe_escapes :
  let thrown := (let! o := object_literal [("toString", VNumber 1)] in throw o) in
  let rejected := (let! o := object_literal [("toString", VNumber 1)] in
                   alloc (OPromise (Rejected o))) in
  let s := State [] [] in
  (∃ s1, thrown s = (Throw (VRef 0), s1) ∧
         heap s1 !! 0 = Some (OPlain [("toString", VNumber 1)]) ∧
         instanceof_Error (heap s1) (VRef 0) = false ∧
         (∃ l s2, trySafe thrown s = (Normal (VRef l), s2) ∧
                  is_Err (heap s2) (VRef l) = true ∧
                  get_prop (VRef l) "error" s2 = (Normal (VRef 0), s2)) ∧
         (∃ x s2, Historical.trySafe thrown s = Some (Throw x, s2) ∧
                  instanceof_Error (heap s2) x = true ∧
                  x ≠ VRef 0)) ∧
  (∃ s1, rejected s = (Normal (VRef 1), s1) ∧
         heap s1 !! 0 = Some (OPlain [("toString", VNumber 1)]) ∧
         promise_state s1 1 = Some (Rejected (VRef 0)) ∧
         (∃ p2 s2 l,
            trySafe rejected s = (Normal (VRef p2), s2) ∧
            let s3 := drain (backlog s2) s2 in
            queue s3 = [] ∧
            promise_state s3 p2 = Some (Fulfilled (VRef l)) ∧
            heap s3 !! l = Some (OPlain [("ok", VBool false); ("error", VRef 0)])) ∧
         (∃ p2 s2 x,
            Historical.trySafe rejected s = Some (Normal (VRef p2), s2) ∧
            let s3 := drain (backlog s2) s2 in
            queue s3 = [] ∧
            promise_state s3 p2 = Some (Rejected x) ∧
            instanceof_Error (heap s3) x = true ∧
            x ≠ VRef 0)).
Proof.
  intros thrown rejected s. split.
  - eexists. split; [reflexivity|]. split; [reflexivity|]. split; [reflexivity|].
    split.
    + eexists _, _. split; [reflexivity|]. split; reflexivity.
    + eexists _, _. split; [reflexivity|]. split; [reflexivity|]. discriminate.
  - eexists. split; [reflexivity|]. split; [reflexivity|]. split; [reflexivity|].
    split.
    + eexists _, _, _. split; [reflexivity|]. cbv zeta.
      split; [reflexivity|]. split; reflexivity.
    + eexists _, _, _. split; [reflexivity|]. cbv zeta.
      split; [reflexivity|]. split; [reflexivity|]. split; [reflexivity|].
      discriminate.
Qed.

(** C5 as the claim states it fails: a callable that returns a thenable
    which is not an instance of [Promise] gets a success record back at
    once, with the thenable as its [value]. *)
Lemma trySafe_thenable_counterexample :
  let fn := (let! f := alloc OFunction in object_literal [("then", f)]) in
  let s := State [] [] in
  ∃ v s1 r s2,
    fn s = (Normal v, s1) ∧
    is_thenable (heap s1) v = true ∧
    trySafe fn s = (Normal r, s2) ∧
    instanceof_Promise (heap s2) r = false ∧
    is_Ok (heap s2) r = true ∧
    get_prop r "value" s2 = (Normal v, s2).
Proof.
  intros fn s. eexists _, _, _, _.
  split; [reflexivity|]. split; [reflexivity|].
  split; [reflexivity|]. split; [reflexivity|]. split; reflexivity.
Qed.

(** C5, amended: [trySafe] dispatches on [instanceof Promise].  When the
    callable's result is an instance of [Promise], [trySafe] returns a
    pending promise; when it is anything else, a thenable that is not an
    instance of [Promise] included, [trySafe] returns a success record
    around the result at once. *)
Theorem trySafe_dispatch_on_instanceof (fn : M val) (s s1 : state) (v : val) :
  fn s = (Normal v, s1) →
  (instanceof_Promise (heap s1) v = true →
   ∃ p2 s2, trySafe fn s = (Normal (VRef p2), s2) ∧
            promise_state s2 p2 = Some (Pending [] [])) ∧
  (instanceof_Promise (heap s1) v = false →
   ∃ l s2, trySafe fn s = (Normal (VRef l), s2) ∧
           instanceof_Promise (heap s2) (VRef l) = false ∧
           is_Ok (heap s2) (VRef l) = true ∧
           get_prop (VRef l) "value" s2 = (Normal v, s2)).
Proof.
  intros Hfn. split.
  - intros Hinst.
    destruct (instanceof_Promise_inv _ _ Hinst) as (p & st & -> & Hp).
    destruct (chain_returns_pending HWrapErr s1 p st Hp) as (s2 & Hchain & Hp2).
    exists (S (length (heap s1))), s2.
    split; [by eapply trySafe_promise|by apply promise_state_Some].
  - intros Hinst. eexists _, _. split; [by apply trySafe_value|].
    cbn [heap instanceof_Promise is_Ok]. rewrite lookup_fresh.
    split; [done|]. split; [done|]. by rewrite get_prop_fresh.
Qed.

Lemma trySafe_dispatch_on_instanceof_witness :
  let thenable := (let! f := alloc OFunction in object_literal [("then", f)]) in
  let s := State [] [] in
  thenable s = (Normal (VRef 1), State [OFunction; OPlain [("then", VRef 0)]] []) ∧
  (∃ l s2, trySafe thenable s = (Normal (VRef l), s2) ∧
           instanceof_Promise (heap s2) (VRef l) = false ∧
           is_Ok (heap s2) (VRef l) = true ∧
           get_prop (VRef l) "value" s2 = (Normal (VRef 1), s2)) ∧
  (∃ p2 s2, trySafe (alloc (OPromise (Fulfilled (VNumber 1)))) s = (Normal (VRef p2), s2) ∧
            promise_state s2 p2 = Some (Pending [] [])).
Proof.
  intros thenable s. split; [reflexivity|]. split.
  - apply (proj2 (trySafe_dispatch_on_instanceof thenable s _ (VRef 1) eq_refl)).
    reflexivity.
  - apply (proj1 (trySafe_dispatch_on_instanceof
                    (alloc (OPromise (Fulfilled (VNumber 1)))) s _ (VRef 0) eq_refl)).
    reflexivity.
Defined.

(** ** The unit tests of the repository, replayed on the model *)

(** [trySafe(() => 100)] equals [{ ok: true, value: 100 }]. *)
Example test_sync_success :
  trySafe (ret (VNumber 100)) (State [] []) =
  (Normal (VRef 0), State [OPlain [("ok", VBool true); ("value", VNumber 100)]] []).
Proof. reflexivity. Qed.

(** [trySafe(() => { throw 'string error' })]: the exported version keeps
    the string, the earlier version wraps it in an [Error]. *)
Example test_sync_string :
  trySafe (throw (VString "string error")) (State [] []) =
  (Normal (VRef 0),
   State [OPlain [("ok", VBool false); ("error", VString "string error")]] []) ∧
  Historical.trySafe (throw (VString "string error")) (State [] []) =
  Some (Normal (VRef 1),
        State [OError "string error"; OPlain [("ok", VBool false); ("error", VRef 0)]] []).
Proof. split; reflexivity. Qed.

(** [await trySafe(() => Promise.resolve(1))] equals [{ ok: true, value: 1 }]. *)
Example test_async_resolved :
  let '(_, s2) := trySafe (alloc (OPromise (Fulfilled (VNumber 1)))) (State [] []) in
  let s3 := drain (backlog s2) s2 in
  promise_state s3 2 = Some (Fulfilled (VRef 3)) ∧
  heap s3 !! 3 = Some (OPlain [("ok", VBool true); ("value", VNumber 1)]) ∧
  queue s3 = [].
Proof. repeat split; reflexivity. Qed.

(** [await trySafe(() => Promise.reject('async string fail'))] under the
    two versions. *)
Example test_async_rejected :
  (let '(_, s2) := trySafe (alloc (OPromise (Rejected (VString "async string fail"))))
                     (State [] []) in
   let s3 := drain (backlog s2) s2 in
   promise_state s3 2 = Some (Fulfilled (VRef 3)) ∧
   heap s3 !! 3 = Some (OPlain [("ok", VBool false);
                                ("error", VString "async string fail")])) ∧
  (∃ r s2, Historical.trySafe
             (alloc (OPromise (Rejected (VString "async string fail"))))
             (State [] []) = Some (r, s2) ∧
           let s3 := drain (backlog s2) s2 in
           promise_state s3 2 = Some (Fulfilled (VRef 4)) ∧
           heap s3 !! 3 = Some (OError "async string fail") ∧
           heap s3 !! 4 = Some (OPlain [("ok", VBool false); ("error", VRef 3)])).
Proof.
  split; [repeat split; reflexivity|].
  eexists _, _. split; [reflexivity|]. repeat split; reflexivity.
Qed.

(** A promise that is pending when [trySafe] returns and is rejected by the
    program afterwards. *)
Example test_async_pending_then_rejected :
  let '(_, s2) := trySafe (alloc (OPromise (Pending [] []))) (State [] []) in
  let s3 := reject_promise 0 (VNumber 3) s2 in
  let s4 := drain (backlog s3) s3 in
  promise_state s2 2 = Some (Pending [] []) ∧
  promise_state s4 2 = Some (Fulfilled (VRef 3)) ∧
  heap s4 !! 3 = Some (OPlain [("ok", VBool false); ("error", VNumber 3)]).
Proof. repeat split; reflexivity. Qed.

(** [Result.unwrapOr(Result.ok(42), 0)] is [42] and
    [Result.unwrapOr(Result.err('oops'), 100)] is [100]. *)
Example test_unwrapOr :
  fst ((let! r := Result.ok (VNumber 42) in Result.unwrapOr r (VNumber 0)) (State [] []))
    = Normal (VNumber 42) ∧
  fst ((let! r := Result.err (VString "oops") in Result.unwrapOr r (VNumber 100))
         (State [] []))
    = Normal (VNumber 100).
Proof. split; reflexivity. Qed.

(** * Further properties of the [Result] helpers *)

Lemma get_prop_primitive (v : val) (k : string) (s : state) :
  v ≠ VUndefined → v ≠ VNull → (∀ l, v ≠ VRef l) →
  get_prop v k s = (Normal VUndefined, s).
Proof. intros Hu Hn Hr. destruct v; try done. by destruct (Hr l). Qed.

Lemma get_prop_normal (v : val) (k : string) (s : state) :
  v ≠ VUndefined → v ≠ VNull →
  ∃ x, get_prop v k s = (Normal x, s).
Proof.
  intros Hu Hn. destruct v as [| | | | |l]; try done; try (by eexists).
  unfold get_prop, bind, get_heap.
  destruct (heap s !! l) as [[| | |]|]; by eexists.
Qed.

Lemma get_prop_nullish (v : val) (k : string) (s : state) :
  v = VUndefined ∨ v = VNull →
  get_prop v k s =
  (Throw (VRef (length (heap s))),
   State (heap s ++ [OError ("Cannot read properties of "
                             ++ match v with VNull => "null" | _ => "undefined" end)%string])
         (queue s)).
Proof. by intros [-> | ->]. Qed.


(** X2: every call of a constructor, [ok] or [err], returns a new object.
    The reference names nothing before the call, two calls (of the same
    constructor or of the two, in either order) return different references
    even for equal payloads, the second call leaves the first record as it
    is, and the objects that exist are left as they are. *)
Theorem Result_records_fresh (mk1 mk2 : val → M val) (v w : val) (s : state) :
  mk1 = Result.ok ∨ mk1 = Result.err →
  mk2 = Result.ok ∨ mk2 = Result.err →
  ∃ l1 l2 s1 s2,
    mk1 v s = (Normal (VRef l1), s1) ∧
    mk2 w s1 = (Normal (VRef l2), s2) ∧
    heap s !! l1 = None ∧
    heap s1 !! l2 = None ∧
    l1 ≠ l2 ∧
    (mk1 = Result.ok →
     heap s2 !! l1 = Some (OPlain [("ok", VBool true); ("value", v)])) ∧
    (mk1 = Result.err →
     heap s2 !! l1 = Some (OPlain [("ok", VBool false); ("error", v)])) ∧
    (mk2 = Result.ok →
     heap s2 !! l2 = Some (OPlain [("ok", VBool true); ("value", w)])) ∧
    (mk2 = Result.err →
     heap s2 !! l2 = Some (OPlain [("ok", VBool false); ("error", w)])) ∧
    (∀ l o, heap s !! l = Some o → heap s2 !! l = Some o).
Proof.
  intros H1 H2.
  assert (Hdiff : Result.ok ≠ Result.err).
  { intros Heq.
    pose proof (f_equal (λ mk, mk VUndefined (State [] [])) Heq) as Hs.
    discriminate Hs. }
  exists (length (heap s)), (S (length (heap s))).
  destruct H1 as [-> | ->]; destruct H2 as [-> | ->];
    (eexists _, _; split; [apply object_literal_spec|];
     split; [unfold Result.ok, Result.err; rewrite object_literal_spec;
             cbn [heap queue]; rewrite length_app; cbn [length];
             by rewrite Nat.add_1_r|];
     cbn [heap queue];
     split; [by apply lookup_ge_None_2|];
     split; [apply lookup_ge_None_2; rewrite length_app; cbn [length]; lia|];
     split; [lia|];
     assert (Hfirst : ∀ o o', ((heap s ++ [o]) ++ [o']) !! length (heap s) = Some o)
       by (intros o o'; apply lookup_old, lookup_fresh);
     assert (Hsecond : ∀ o o', ((heap s ++ [o]) ++ [o']) !! S (length (heap s)) = Some o')
       by (intros o o';
           replace (S (length (heap s))) with (length (heap s ++ [o]))
             by (rewrite length_app; cbn [length]; lia);
           apply lookup_fresh);
     repeat split;
     try (intros Heq; first [by destruct (Hdiff Heq) | by destruct (Hdiff (eq_sym Heq))
                            | apply Hfirst | apply Hsecond]);
     try (intros l o Hl; by do 2 apply lookup_old)).
Qed.

Lemma Result_records_fresh_witness :
  ∃ l1 l2 s1 s2,
    Result.ok (VNumber 1) (State [] []) = (Normal (VRef l1), s1) ∧
    Result.err (VNumber 1) s1 = (Normal (VRef l2), s2) ∧
    l1 ≠ l2 ∧
    heap s2 !! l1 = Some (OPlain [("ok", VBool true); ("value", VNumber 1)]) ∧
    heap s2 !! l2 = Some (OPlain [("ok", VBool false); ("error", VNumber 1)]).
Proof.
  destruct (Result_records_fresh Result.ok Result.err (VNumber 1) (VNumber 1)
              (State [] []) (or_introl eq_refl) (or_intror eq_refl))
    as (l1 & l2 & s1 & s2 & Hok & Herr & _ & _ & Hne & Hrec1 & _ & _ & Hrec2 & _).
  exists l1, l2, s1, s2. split; [done|]. split; [done|]. split; [done|].
  split; [by apply Hrec1|by apply Hrec2].
Defined.

(** X3: on [null] and on [undefined] the three helpers throw: the property
    read [result.ok] raises a [TypeError], an instance of [Error], and
    nothing else happens. *)
Theorem Result_helpers_nullish (r d : val) (s : state) :
  r = VNull ∨ r = VUndefined →
  ∃ l s',
    Result.isOk r s = (Throw (VRef l), s') ∧
    Result.isErr r s = (Throw (VRef l), s') ∧
    Result.unwrapOr r d s = (Throw (VRef l), s') ∧
    instanceof_Error (heap s') (VRef l) = true ∧
    (∀ l' o, heap s !! l' = Some o → heap s' !! l' = Some o) ∧
    queue s' = queue s.
Proof.
  intros Hr. assert (Hr' : r = VUndefined ∨ r = VNull) by tauto.
  eexists _, _. unfold Result.isOk, Result.isErr, Result.unwrapOr.
  rewrite !(bind_Throw _ _ _ _ _ (get_prop_nullish _ _ _ Hr')).
  split; [by apply get_prop_nullish|]. split; [done|]. split; [done|].
  cbn [heap queue instanceof_Error]. rewrite lookup_fresh.
  split; [done|]. split; [|done]. intros l' o Hl. by apply lookup_old.
Qed.

Lemma Result_helpers_nullish_witness :
  ∃ l s',
    Result.isOk VNull (State [] []) = (Throw (VRef l), s') ∧
    Result.unwrapOr VNull (VNumber 3000) (State [] []) = (Throw (VRef l), s') ∧
    instanceof_Error (heap s') (VRef l) = true.
Proof.
  destruct (Result_helpers_nullish VNull (VNumber 3000) (State [] []) (or_introl eq_refl))
    as (l & s' & H1 & _ & H3 & H4 & _).
  by exists l, s'.
Defined.

(** X4: on every value other than [null] and [undefined], whether it is a
    [Result] or not, the three helpers complete normally and leave the state
    exactly as it was: they only read, so calling them again gives the same
    answer. *)
Theorem Result_helpers_read_only (r d : val) (s : state) :
  r ≠ VNull → r ≠ VUndefined →
  ∃ x b y,
    Result.isOk r s = (Normal x, s) ∧
    Result.isErr r s = (Normal (VBool b), s) ∧
    Result.unwrapOr r d s = (Normal y, s).
Proof.
  intros Hn Hu.
  destruct (get_prop_normal r "ok" s Hu Hn) as [flag Hflag].
  destruct (get_prop_normal r "value" s Hu Hn) as [value Hvalue].
  exists flag, (negb (to_boolean flag)), (if to_boolean flag then value else d).
  unfold Result.isOk, Result.isErr, Result.unwrapOr.
  rewrite !(bind_Normal _ _ _ _ _ Hflag). split; [done|]. split; [done|].
  destruct (to_boolean flag); [done|reflexivity].
Qed.

Lemma Result_helpers_read_only_witness :
  let s := State [OError "boom"] [] in
  ∃ x b y,
    Result.isOk (VRef 0) s = (Normal x, s) ∧
    Result.isErr (VRef 0) s = (Normal (VBool b), s) ∧
    Result.unwrapOr (VRef 0) (VNumber 1) s = (Normal y, s).
Proof.
  intros s. apply (Result_helpers_read_only (VRef 0) (VNumber 1) s); discriminate.
Defined.

(** X5: a value without an [ok] property (a primitive, or an object literal
    that lacks the flag) is taken for a failure by [isErr] and [unwrapOr],
    even when it carries a [value]; [isOk] answers [undefined], not
    [false]. *)
Theorem Result_helpers_missing_flag (r d : val) (s : state) :
  (∃ l props, r = VRef l ∧ heap s !! l = Some (OPlain props) ∧
              lookup_prop "ok" props = None) ∨
  (∃ b, r = VBool b) ∨ (∃ n, r = VNumber n) ∨ (∃ t, r = VString t) →
  Result.isOk r s = (Normal VUndefined, s) ∧
  Result.isErr r s = (Normal (VBool true), s) ∧
  Result.unwrapOr r d s = (Normal d, s).
Proof.
  intros Hr.
  assert (Hflag : get_prop r "ok" s = (Normal VUndefined, s)).
  { destruct Hr as [(l & props & -> & Hl & Hok)|[[b ->]|[[n ->]|[t ->]]]]; try done.
    by rewrite (get_prop_plain _ _ _ _ Hl), Hok. }
  unfold Result.isOk, Result.isErr, Result.unwrapOr.
  by rewrite !(bind_Normal _ _ _ _ _ Hflag).
Qed.

Lemma Result_helpers_missing_flag_witness :
  let s := State [OPlain [("value", VNumber 5)]] [] in
  Result.isOk (VRef 0) s = (Normal VUndefined, s) ∧
  Result.isErr (VRef 0) s = (Normal (VBool true), s) ∧
  Result.unwrapOr (VRef 0) (VNumber 9) s = (Normal (VNumber 9), s).
Proof.
  intros s. apply (Result_helpers_missing_flag (VRef 0) (VNumber 9) s).
  left. exists 0, [("value", VNumber 5)]. by repeat split.
Defined.

(** * Further properties of [trySafe] *)

(** X6: [trySafe] never throws.  Whatever the callable does (return, throw,
    hand back a promise in any state), the call completes normally with a
    reference to an outcome record or to a pending promise. *)
Theorem trySafe_never_throws (fn : M val) (s : state) :
  ∃ l s', trySafe fn s = (Normal (VRef l), s') ∧
          (is_Result (heap s') (VRef l) = true ∨
           promise_state s' l = Some (Pending [] [])).
Proof.
  destruct (fn s) as [[v|e] s1] eqn:Hfn.
  - destruct (instanceof_Promise (heap s1) v) eqn:Hinst.
    + destruct (instanceof_Promise_inv _ _ Hinst) as (p & st & -> & Hp).
      destruct (chain_returns_pending HWrapErr s1 p st Hp) as (s2 & Hchain & Hp2).
      exists (S (length (heap s1))), s2.
      split; [by eapply trySafe_promise|]. right. by apply promise_state_Some.
    + eexists _, _. split; [by apply trySafe_value|]. left.
      unfold is_Result, is_Ok. cbn [heap]. by rewrite lookup_fresh.
  - eexists _, _. split; [by apply trySafe_throw|]. left.
    unfold is_Result, is_Ok, is_Err. cbn [heap]. by rewrite lookup_fresh.
Qed.

(** X7: the helpers applied to what [trySafe] returns at once.  When the
    callable returned a value that is not a promise, [isOk] is [true],
    [isErr] is [false] and [unwrapOr] gives that value back; when the
    callable threw, [isOk] is [false], [isErr] is [true] and [unwrapOr]
    gives the default. *)
Theorem trySafe_then_helpers (fn : M val) (s s1 : state) (d : val) :
  (∀ v, fn s = (Normal v, s1) →
        instanceof_Promise (heap s1) v = false →
        (let! r := trySafe fn in Result.isOk r) s
          = (Normal (VBool true), snd (trySafe fn s)) ∧
        (let! r := trySafe fn in Result.isErr r) s
          = (Normal (VBool false), snd (trySafe fn s)) ∧
        (let! r := trySafe fn in Result.unwrapOr r d) s
          = (Normal v, snd (trySafe fn s))) ∧
  (∀ e, fn s = (Throw e, s1) →
        (let! r := trySafe fn in Result.isOk r) s
          = (Normal (VBool false), snd (trySafe fn s)) ∧
        (let! r := trySafe fn in Result.isErr r) s
          = (Normal (VBool true), snd (trySafe fn s)) ∧
        (let! r := trySafe fn in Result.unwrapOr r d) s
          = (Normal d, snd (trySafe fn s))).
Proof.
  split.
  - intros v Hfn Hv. pose proof (trySafe_value _ _ _ _ Hfn Hv) as Hret.
    rewrite !(bind_Normal _ _ _ _ _ Hret), Hret. cbn [snd].
    unfold Result.isOk, Result.isErr, Result.unwrapOr.
    rewrite !(bind_Normal _ _ _ _ _ (get_prop_fresh _ _ _ _)), !get_prop_fresh.
    cbn. by rewrite get_prop_fresh.
  - intros e Hfn. pose proof (trySafe_throw _ _ _ _ Hfn) as Hret.
    rewrite !(bind_Normal _ _ _ _ _ Hret), Hret. cbn [snd].
    unfold Result.isOk, Result.isErr, Result.unwrapOr.
    by rewrite !(bind_Normal _ _ _ _ _ (get_prop_fresh _ _ _ _)), !get_prop_fresh.
Qed.

Lemma trySafe_then_helpers_witness :
  (let! r := trySafe (ret (VNumber 8080)) in Result.unwrapOr r (VNumber 3000)) (State [] [])
    = (Normal (VNumber 8080), snd (trySafe (ret (VNumber 8080)) (State [] []))) ∧
  (let! r := trySafe (throw (VString "no config")) in Result.unwrapOr r (VNumber 3000))
    (State [] [])
    = (Normal (VNumber 3000), snd (trySafe (throw (VString "no config")) (State [] []))).
Proof.
  split.
  - apply (proj1 (trySafe_then_helpers (ret (VNumber 8080)) (State [] []) (State [] [])
                    (VNumber 3000)) (VNumber 8080)); reflexivity.
  - apply (proj2 (trySafe_then_helpers (throw (VString "no config")) (State [] [])
                    (State [] []) (VNumber 3000)) (VString "no config")); reflexivity.
Defined.

(** X8: the helpers applied to the awaited outcome.  After the source
    promise has settled and the queue has drained, the value that fulfils
    the returned promise is a [Result]: for a fulfilled source [isOk] is
    [true] and [unwrapOr] gives the source's value; for a rejected source
    [isErr] is [true] and [unwrapOr] gives the default. *)
Theorem trySafe_awaited_helpers (fn : M val) (s s1 : state) (p : loc) (d : val) :
  fn s = (Normal (VRef p), s1) →
  instanceof_Promise (heap s1) (VRef p) = true →
  wf_state s1 →
  ∃ p2 s2,
    trySafe fn s = (Normal (VRef p2), s2) ∧
    ∀ s', rtc step s2 s' →
      let s'' := drain (backlog s') s' in
      (∀ v, promise_state s' p = Some (Fulfilled v) →
            ∃ r, promise_state s'' p2 = Some (Fulfilled r) ∧
                 is_Ok (heap s'') r = true ∧
                 Result.isOk r s'' = (Normal (VBool true), s'') ∧
                 Result.isErr r s'' = (Normal (VBool false), s'') ∧
                 Result.unwrapOr r d s'' = (Normal v, s'')) ∧
      (∀ e, promise_state s' p = Some (Rejected e) →
            ∃ r, promise_state s'' p2 = Some (Fulfilled r) ∧
                 is_Err (heap s'') r = true ∧
                 Result.isOk r s'' = (Normal (VBool false), s'') ∧
                 Result.isErr r s'' = (Normal (VBool true), s'') ∧
                 Result.unwrapOr r d s'' = (Normal d, s'')).
Proof.
  intros Hfn Hinst Hwf.
  destruct (instanceof_Promise_inv _ _ Hinst) as (p' & st & [= <-] & Hp).
  destruct (chain_established HWrapErr s1 p st ltac:(done) Hwf Hp)
    as (s2 & Hchain & Hc & _).
  exists (S (length (heap s1))), s2. split; [by eapply trySafe_promise|].
  intros s' Hsteps s''.
  destruct (chain_run HWrapErr _ _ _ _ _ ltac:(done) Hc Hsteps) as (_ & _ & Hful & Hrej).
  fold s'' in Hful, Hrej. split.
  - intros v Hv%promise_state_Some. destruct (Hful v Hv) as (l & H2 & Hl).
    exists (VRef l). split; [by apply promise_state_Some|].
    unfold is_Ok, Result.isOk, Result.isErr, Result.unwrapOr.
    rewrite !(bind_Normal _ _ _ _ _ (get_prop_plain _ _ _ _ Hl)), Hl.
    rewrite (get_prop_plain _ _ _ _ Hl). cbn. by rewrite (get_prop_plain _ _ _ _ Hl).
  - intros e Hr%promise_state_Some.
    destruct (Hrej e Hr) as (st' & H2 & Ho). inversion Ho as [| | |? l Hl]; subst.
    exists (VRef l). split; [by apply promise_state_Some|].
    unfold is_Err, Result.isOk, Result.isErr, Result.unwrapOr.
    rewrite !(bind_Normal _ _ _ _ _ (get_prop_plain _ _ _ _ Hl)), Hl.
    by rewrite (get_prop_plain _ _ _ _ Hl).
Qed.

Lemma trySafe_awaited_helpers_witness :
  let fn := alloc (OPromise (Rejected (VString "Database disconnected"))) in
  let s1 := State [OPromise (Rejected (VString "Database disconnected"))] [] in
  wf_state s1 ∧
  ∃ p2 s2,
    trySafe fn (State [] []) = (Normal (VRef p2), s2) ∧
    ∃ r, promise_state (drain (backlog s2) s2) p2 = Some (Fulfilled r) ∧
         Result.isErr r (drain (backlog s2) s2)
           = (Normal (VBool true), drain (backlog s2) s2).
Proof.
  intros fn s1.
  assert (Hwf : wf_state s1) by (apply wf_state_single_promise; exact I).
  split; [exact Hwf|].
  destruct (trySafe_awaited_helpers fn (State [] []) s1 0 VUndefined eq_refl eq_refl Hwf)
    as (p2 & s2 & Hret & Hrun).
  exists p2, s2. split; [done|].
  destruct (Hrun s2 (rtc_refl _ _)) as [_ Hrej].
  destruct (Hrej (VString "Database disconnected")) as (r & H2 & _ & _ & He & _).
  { apply promise_state_Some.
    unfold trySafe in Hret. vm_compute in Hret. injection Hret as _ <-. reflexivity. }
  by exists r.
Defined.

Lemma instanceof_Error_inv (h : list object) (v : val) :
  instanceof_Error h v = true → ∃ l m, v = VRef l ∧ h !! l = Some (OError m).
Proof.
  unfold instanceof_Error. destruct v as [| | | | |l]; try discriminate.
  destruct (h !! l) as [[| |m|]|] eqn:Hl; try discriminate. eauto.
Qed.

Lemma instanceof_Error_app (h ext : list object) (v : val) :
  instanceof_Error h v = true → instanceof_Error (h ++ ext) v = true.
Proof.
  intros (l & m & -> & Hl)%instanceof_Error_inv.
  cbn. by rewrite (lookup_old _ ext _ _ Hl).
Qed.


(** What the earlier version makes of a thrown value: the four ways through
    its [catch] block. *)
Lemma Historical_throw_payload (fn : M val) (s s1 : state) (e : val) :
  fn s = (Throw e, s1) →
  (instanceof_Error (heap s1) e = true ∧
   Historical.trySafe fn s =
   Some (Normal (VRef (length (heap s1))),
         State (heap s1 ++ [OPlain [("ok", VBool false); ("error", e)]]) (queue s1)))
  ∨ (∃ m, instanceof_Error (heap s1) e = false ∧
          to_string (heap s1) e = Converted m ∧
          Historical.trySafe fn s =
          Some (Normal (VRef (S (length (heap s1)))),
                State (heap s1 ++ [OError m;
                                   OPlain [("ok", VBool false);
                                           ("error", VRef (length (heap s1)))]])
                      (queue s1)))
  ∨ (instanceof_Error (heap s1) e = false ∧
     to_string (heap s1) e = ConversionThrows ∧
     Historical.trySafe fn s =
     Some (Throw (VRef (length (heap s1))),
           State (heap s1 ++ [OError "Cannot convert object to primitive value"])
                 (queue s1)))
  ∨ (instanceof_Error (heap s1) e = false ∧
     to_string (heap s1) e = NotModelled ∧
     Historical.trySafe fn s = None).
Proof.
  intros Hfn. destruct (instanceof_Error (heap s1) e) eqn:He.
  - left. split; [done|]. by apply Historical_trySafe_throw_Error.
  - right. destruct (to_string (heap s1) e) as [m| |] eqn:Hm.
    + left. exists m. split; [done|]. split; [done|].
      by apply (Historical_trySafe_throw_converted _ _ _ e).
    + right. left. split; [done|]. split; [done|].
      by apply (Historical_trySafe_throw_throws _ _ _ e).
    + right. right. split; [done|]. split; [done|].
      by apply (Historical_trySafe_throw_not_modelled _ _ s1 e).
Qed.

Lemma lookup_second_fresh (h : list object) (o o' : object) :
  (h ++ [o; o']) !! S (length h) = Some o'.
Proof.
  rewrite lookup_app_r by lia.
  by replace (S (length h) - length h) with 1 by lia.
Qed.



(** X10: the normalisation of the earlier version is idempotent: when the
    earlier version has returned a failure for a thrown value, throwing the
    [error] of that failure again gives a failure with the very same
    [error]. *)
Theorem Historical_normalisation_idempotent (fn : M val) (s s1 s2 : state)
    (e r1 : val) :
  fn s = (Throw e, s1) →
  Historical.trySafe fn s = Some (Normal r1, s2) →
  ∃ err r2 s3,
    get_prop r1 "error" s2 = (Normal err, s2) ∧
    instanceof_Error (heap s2) err = true ∧
    Historical.trySafe (throw err) s2 = Some (Normal r2, s3) ∧
    is_Err (heap s3) r2 = true ∧
    get_prop r2 "error" s3 = (Normal err, s3).
Proof.
  intros Hfn Hret.
  assert (Hpay : ∃ err, get_prop r1 "error" s2 = (Normal err, s2) ∧
                        instanceof_Error (heap s2) err = true).
  { destruct (Historical_throw_payload fn s s1 e Hfn)
      as [[He Heq]|[(m & He & Hm & Heq)|[(He & Hm & Heq)|(He & Hm & Heq)]]];
      rewrite Heq in Hret; try discriminate; injection Hret as <- <-.
    - exists e. rewrite get_prop_fresh. split; [done|]. by apply instanceof_Error_app.
    - exists (VRef (length (heap s1))).
      split; [by rewrite (get_prop_plain (State _ _) _ _ _ (lookup_second_fresh _ _ _))|].
      cbn [heap instanceof_Error]. by rewrite list_lookup_middle. }
  destruct Hpay as (err & Hget & Hinst).
  exists err. eexists _, _. split; [done|]. split; [done|].
  split; [by apply (Historical_trySafe_throw_Error (throw err) s2 s2 err)|].
  unfold is_Err. cbn [heap]. rewrite lookup_fresh. split; [done|].
  by rewrite get_prop_fresh.
Qed.

Lemma Historical_normalisation_idempotent_witness :
  let s2 := State [OError "string error";
                   OPlain [("ok", VBool false); ("error", VRef 0)]] [] in
  Historical.trySafe (throw (VString "string error")) (State [] []) =
    Some (Normal (VRef 1), s2) ∧
  ∃ err r2 s3,
    get_prop (VRef 1) "error" s2 = (Normal err, s2) ∧
    instanceof_Error (heap s2) err = true ∧
    Historical.trySafe (throw err) s2 = Some (Normal r2, s3) ∧
    is_Err (heap s3) r2 = true ∧
    get_prop r2 "error" s3 = (Normal err, s3).
Proof.
  intros s2. split; [reflexivity|].
  exact (Historical_normalisation_idempotent (throw (VString "string error"))
           (State [] []) (State [] []) s2 (VString "string error") (VRef 1)
           eq_refl eq_refl).
Defined.



(** What [then] changes: the receiver gains the reactions (or a job is
    queued), one pending promise is allocated, and nothing else moves. *)
Lemma promise_then_effect (s : state) (p : loc) (st : pstate)
    (onF onR : option handler) :
  heap s !! p = Some (OPromise st) →
  let d := length (heap s) in
  let rf := Reaction (default HIdentity onF) d in
  let rr := Reaction (default HThrower onR) d in
  ∃ s', promise_then (VRef p) onF onR s = (Normal (VRef d), s') ∧
        length (heap s') = S d ∧
        heap s' !! d = Some (OPromise (Pending [] [])) ∧
        (∀ l o, l ≠ p → heap s !! l = Some o → heap s' !! l = Some o) ∧
        match st with
        | Pending frs rrs =>
            heap s' !! p = Some (OPromise (Pending (frs ++ [rf]) (rrs ++ [rr]))) ∧
            queue s' = queue s
        | Fulfilled v =>
            heap s' !! p = Some (OPromise st) ∧ queue s' = queue s ++ [Job rf v]
        | Rejected r =>
            heap s' !! p = Some (OPromise st) ∧ queue s' = queue s ++ [Job rr r]
        end.
Proof.
  intros Hp d rf rr. subst d rf rr.
  assert (Hlt : p < length (heap s)) by (by eapply lookup_lt_Some).
  rewrite (promise_then_spec _ _ _ _ _ Hp). cbv zeta.
  eexists. split; [reflexivity|].
  destruct st as [frs rrs|v|r]; cbn [heap queue].
  - split; [rewrite length_insert, length_app; cbn; lia|].
    split; [rewrite list_lookup_insert_ne by lia; apply lookup_fresh|].
    split.
    + intros l o Hne Hl. rewrite list_lookup_insert_ne by done. by apply lookup_old.
    + split; [|done]. apply list_lookup_insert_eq. rewrite length_app. cbn. lia.
  - split; [rewrite length_app; cbn; lia|]. split; [apply lookup_fresh|].
    split; [intros l o _ Hl; by apply lookup_old|]. split; [by apply lookup_old|done].
  - split; [rewrite length_app; cbn; lia|]. split; [apply lookup_fresh|].
    split; [intros l o _ Hl; by apply lookup_old|]. split; [by apply lookup_old|done].
Qed.

(** The state in which the chain of [trySafe] returns. *)
Lemma chain_effect (hr : handler) (s1 : state) (p : loc) (st : pstate) :
  heap s1 !! p = Some (OPromise st) →
  let p1 := length (heap s1) in
  let p2 := S p1 in
  ∃ s2, (let! chained := promise_then (VRef p) (Some HWrapOk) None in
         promise_catch chained hr) s1 = (Normal (VRef p2), s2) ∧
        length (heap s2) = S p2 ∧
        heap s2 !! p1 = Some (OPromise (Pending [Reaction HIdentity p2] [Reaction hr p2])) ∧
        heap s2 !! p2 = Some (OPromise (Pending [] [])) ∧
        (∀ l o, l ≠ p → heap s1 !! l = Some o → heap s2 !! l = Some o) ∧
        match st with
        | Pending frs rrs =>
            heap s2 !! p = Some (OPromise (Pending (frs ++ [Reaction HWrapOk p1])
                                                   (rrs ++ [Reaction HThrower p1]))) ∧
            queue s2 = queue s1
        | Fulfilled v =>
            heap s2 !! p = Some (OPromise st) ∧
            queue s2 = queue s1 ++ [Job (Reaction HWrapOk p1) v]
        | Rejected r =>
            heap s2 !! p = Some (OPromise st) ∧
            queue s2 = queue s1 ++ [Job (Reaction HThrower p1) r]
        end.
Proof.
  intros Hp p1 p2. subst p1 p2.
  assert (Hlt : p < length (heap s1)) by (by eapply lookup_lt_Some).
  destruct (promise_then_effect s1 p st (Some HWrapOk) None Hp)
    as (s1' & Hthen1 & Hlen1 & Hd1 & Hkeep1 & Hsrc1).
  cbn [default] in *.
  destruct (promise_then_effect s1' (length (heap s1)) (Pending [] []) None (Some hr) Hd1)
    as (s2 & Hthen2 & Hlen2 & Hd2 & Hkeep2 & Hsrc2 & Hq2).
  cbn [default app] in *. rewrite Hlen1 in Hthen2, Hlen2, Hd2, Hsrc2.
  exists s2. split; [by rewrite (bind_Normal _ _ _ _ _ Hthen1)|].
  split; [done|]. split; [done|]. split; [done|]. split.
  - intros l o Hne Hl. apply Hkeep2; [|by apply Hkeep1].
    apply lookup_lt_Some in Hl. lia.
  - rewrite Hq2.
    destruct st as [frs rrs|v|r]; destruct Hsrc1 as [Hs Hq];
      (split; [apply Hkeep2; [lia|done]|done]).
Qed.

(** X11: [trySafe] neither settles nor replaces the promise it is given, and
    changes no other object.  A pending source only gains the two reactions
    of [trySafe], behind the reactions registered before; for a settled
    source one job is queued behind the jobs already waiting; exactly two
    promises are allocated, both pending. *)
Theorem trySafe_keeps_source (fn : M val) (s s1 : state) (p : loc) (st : pstate) :
  fn s = (Normal (VRef p), s1) →
  heap s1 !! p = Some (OPromise st) →
  let p1 := length (heap s1) in
  let p2 := S p1 in
  ∃ s2,
    trySafe fn s = (Normal (VRef p2), s2) ∧
    length (heap s2) = length (heap s1) + 2 ∧
    promise_state s2 p1 = Some (Pending [Reaction HIdentity p2] [Reaction HWrapErr p2]) ∧
    promise_state s2 p2 = Some (Pending [] []) ∧
    (∀ l o, l ≠ p → heap s1 !! l = Some o → heap s2 !! l = Some o) ∧
    match st with
    | Pending frs rrs =>
        promise_state s2 p = Some (Pending (frs ++ [Reaction HWrapOk p1])
                                           (rrs ++ [Reaction HThrower p1])) ∧
        queue s2 = queue s1
    | Fulfilled v =>
        promise_state s2 p = Some (Fulfilled v) ∧
        queue s2 = queue s1 ++ [Job (Reaction HWrapOk p1) v]
    | Rejected r =>
        promise_state s2 p = Some (Rejected r) ∧
        queue s2 = queue s1 ++ [Job (Reaction HThrower p1) r]
    end.
Proof.
  intros Hfn Hp p1 p2. subst p1 p2.
  destruct (chain_effect HWrapErr s1 p st Hp)
    as (s2 & Hchain & Hlen & Hp1 & Hp2 & Hkeep & Hsrc).
  exists s2. split.
  { eapply trySafe_promise; eauto. cbn. by rewrite Hp. }
  split; [lia|].
  split; [by apply promise_state_Some|]. split; [by apply promise_state_Some|].
  split; [done|].
  destruct st; destruct Hsrc as [Hs Hq]; (split; [by apply promise_state_Some|done]).
Qed.

Lemma trySafe_keeps_source_witness :
  let early := Reaction HIdentity 7 in
  let s1 := State [OPromise (Pending [early] [])] [] in
  ∃ s2,
    trySafe (ret (VRef 0)) s1 = (Normal (VRef 2), s2) ∧
    promise_state s2 0 = Some (Pending [early; Reaction HWrapOk 1] [Reaction HThrower 1]).
Proof.
  intros early s1.
  destruct (trySafe_keeps_source (ret (VRef 0)) s1 s1 0 (Pending [early] [])
              eq_refl eq_refl) as (s2 & Hret & _ & _ & _ & _ & Hsrc & _).
  by exists s2.
Defined.

(** One turn of the queue on a single job whose target is pending. *)
Lemma run_next_settles (h : list object) (hd : handler) (t : loc) (arg : val)
    (tf tr : list reaction) :
  h !! t = Some (OPromise (Pending tf tr)) →
  value_wf h arg → good_arg h hd arg →
  ∃ s' st x,
    run_next (State h [Job (Reaction hd t) arg]) = Some s' ∧
    (∀ l o, l ≠ t → h !! l = Some o → heap s' !! l = Some o) ∧
    heap s' !! t = Some (OPromise st) ∧
    outcome (heap s') hd arg st ∧
    value_wf (heap s') x ∧
    ((st = Fulfilled x ∧ queue s' = map (λ rx, Job rx x) tf) ∨
     (st = Rejected x ∧ queue s' = map (λ rx, Job rx x) tr)).
Proof.
  intros Ht Hwf Hg.
  assert (Hlt : t < length h) by (by eapply lookup_lt_Some).
  destruct (run_job_cases h [] hd t arg Hwf) as (ext & _ & _ & Hcases).
  destruct Hcases as [(tf' & tr' & st & x & rs & Ht' & Hst & Hx & Ho & Hrun)|[Hno _]];
    [|exfalso; eapply (Hno Hg); by apply lookup_old].
  rewrite (lookup_old _ _ _ _ Ht) in Ht'. injection Ht' as <- <-.
  exists (State (<[t := OPromise st]> (h ++ ext)) ([] ++ map (λ rx, Job rx x) rs)), st, x.
  split; [unfold run_next; cbn [queue heap]; by rewrite Hrun|].
  cbn [heap queue app].
  assert (Hpres : preserved (h ++ ext) (<[t := OPromise st]> (h ++ ext))).
  { eapply preserved_insert. by apply lookup_old. }
  split; [|split; [|split; [|split]]].
  - intros l o Hne Hl. rewrite list_lookup_insert_ne by done. by apply lookup_old.
  - apply list_lookup_insert_eq. rewrite length_app. lia.
  - eapply outcome_preserved; [exact Hpres| |exact (Ho Hg)].
    eapply value_wf_preserved; [apply preserved_app|done].
  - by eapply value_wf_preserved.
  - destruct Hst as [[-> ->]|[-> ->]]; eauto.
Qed.

(** X12: when the source has already settled and no job is waiting, the
    returned promise settles after exactly two turns of the queue, one for
    [then] and one for [catch]: it is still pending after the first turn,
    and after the second it is fulfilled with the outcome record and the
    queue is empty. *)
Theorem trySafe_settles_in_two_jobs (fn : M val) (s s1 : state) (p : loc) :
  fn s = (Normal (VRef p), s1) →
  wf_state s1 →
  queue s1 = [] →
  let p2 := S (length (heap s1)) in
  (∀ v, heap s1 !! p = Some (OPromise (Fulfilled v)) →
        ∃ s2 l,
          trySafe fn s = (Normal (VRef p2), s2) ∧
          promise_state (drain 1 s2) p2 = Some (Pending [] []) ∧
          promise_state (drain 2 s2) p2 = Some (Fulfilled (VRef l)) ∧
          heap (drain 2 s2) !! l = Some (OPlain [("ok", VBool true); ("value", v)]) ∧
          queue (drain 2 s2) = []) ∧
  (∀ r, heap s1 !! p = Some (OPromise (Rejected r)) →
        ∃ s2 l,
          trySafe fn s = (Normal (VRef p2), s2) ∧
          promise_state (drain 1 s2) p2 = Some (Pending [] []) ∧
          promise_state (drain 2 s2) p2 = Some (Fulfilled (VRef l)) ∧
          heap (drain 2 s2) !! l = Some (OPlain [("ok", VBool false); ("error", r)]) ∧
          queue (drain 2 s2) = []).
Proof.
  intros Hfn Hwf Hq1 p2. subst p2. split.
  - intros v Hp.
    destruct (chain_effect HWrapErr s1 p _ Hp)
      as ([h2 q2] & Hchain & Hlen & Hp1 & Hp2 & Hkeep & Hsrc & Hq).
    cbn [heap queue] in *. rewrite Hq1 in Hq. cbn [app] in Hq. subst q2.
    assert (Hv : value_wf h2 v).
    { eapply value_wf_mono; [|apply (wf_settled _ _ _ _ Hwf Hp); by left]. lia. }
    destruct (run_next_settles h2 HWrapOk _ v _ _ Hp1 Hv Hv)
      as ([h3 q3] & st & x & Hrun1 & Hkeep3 & Hp1' & Ho & Hx & Hst).
    cbn [heap queue] in *.
    inversion Ho as [| |? l Hl|]; subst.
    destruct Hst as [[[= <-] Hq3]|[[=] _]]. cbn [map] in Hq3. subst q3.
    assert (Hlp1 : l ≠ length (heap s1)) by (intros ->; congruence).
    assert (Hp2' : h3 !! S (length (heap s1)) = Some (OPromise (Pending [] [])))
      by (apply Hkeep3; [lia|done]).
    assert (Hrec : plain_record h3 (VRef l)) by (eexists _, _; by repeat split).
    destruct (run_next_settles h3 HIdentity _ (VRef l) _ _ Hp2' Hx Hrec)
      as ([h4 q4] & st & y & Hrun2 & Hkeep4 & Hp2'' & Ho2 & _ & Hst).
    cbn [heap queue] in *. inversion Ho2; subst.
    destruct Hst as [[_ Hq4]|[[=] _]]. cbn [map] in Hq4. subst q4.
    exists (State h2 [Job (Reaction HWrapOk (length (heap s1))) v]), l.
    split; [eapply trySafe_promise; eauto; cbn; by rewrite Hp|].
    cbn [drain]. rewrite Hrun1, Hrun2.
    split; [by apply promise_state_Some|]. split; [by apply promise_state_Some|].
    split; [|done]. apply Hkeep4; [|done]. intros ->. congruence.
  - intros r Hp.
    destruct (chain_effect HWrapErr s1 p _ Hp)
      as ([h2 q2] & Hchain & Hlen & Hp1 & Hp2 & Hkeep & Hsrc & Hq).
    cbn [heap queue] in *. rewrite Hq1 in Hq. cbn [app] in Hq. subst q2.
    assert (Hv : value_wf h2 r).
    { eapply value_wf_mono; [|apply (wf_settled _ _ _ _ Hwf Hp); by right]. lia. }
    destruct (run_next_settles h2 HThrower _ r _ _ Hp1 Hv Hv)
      as ([h3 q3] & st & x & Hrun1 & Hkeep3 & Hp1' & Ho & Hx & Hst).
    cbn [heap queue] in *. inversion Ho; subst.
    destruct Hst as [[[=] _]|[[= <-] Hq3]]. cbn [map] in Hq3. subst q3.
    assert (Hp2' : h3 !! S (length (heap s1)) = Some (OPromise (Pending [] [])))
      by (apply Hkeep3; [lia|done]).
    destruct (run_next_settles h3 HWrapErr _ r _ _ Hp2' Hx Hx)
      as ([h4 q4] & st & y & Hrun2 & Hkeep4 & Hp2'' & Ho2 & _ & Hst).
    cbn [heap queue] in *. inversion Ho2 as [| | |? l Hl]; subst.
    destruct Hst as [[_ Hq4]|[[=] _]]. cbn [map] in Hq4. subst q4.
    exists (State h2 [Job (Reaction HThrower (length (heap s1))) r]), l.
    split; [eapply trySafe_promise; eauto; cbn; by rewrite Hp|].
    cbn [drain]. rewrite Hrun1, Hrun2.
    split; [by apply promise_state_Some|]. split; [by apply promise_state_Some|done].
Qed.

Lemma trySafe_settles_in_two_jobs_witness :
  let s1 := State [OPromise (Fulfilled (VString "async success"))] [] in
  wf_state s1 ∧
  ∃ s2 l,
    trySafe (alloc (OPromise (Fulfilled (VString "async success")))) (State [] [])
      = (Normal (VRef 2), s2) ∧
    promise_state (drain 1 s2) 2 = Some (Pending [] []) ∧
    promise_state (drain 2 s2) 2 = Some (Fulfilled (VRef l)) ∧
    heap (drain 2 s2) !! l
      = Some (OPlain [("ok", VBool true); ("value", VString "async success")]) ∧
    queue (drain 2 s2) = [].
Proof.
  intros s1.
  assert (Hwf : wf_state s1) by (apply wf_state_single_promise; exact I).
  split; [exact Hwf|].
  exact (proj1 (trySafe_settles_in_two_jobs
                  (alloc (OPromise (Fulfilled (VString "async success"))))
                  (State [] []) s1 0 eq_refl Hwf eq_refl)
           (VString "async success") eq_refl).
Defined.

(** X13: wrapping a synchronous [trySafe] in another [trySafe] never gives a
    failure and flattens nothing: whether the callable returns a value or
    throws, the outer outcome is a success whose [value] is the inner
    outcome record. *)
Theorem trySafe_nested_sync (fn : M val) (s s1 : state) (c : completion val) :
  fn s = (c, s1) →
  (∀ v, c = Normal v → instanceof_Promise (heap s1) v = false) →
  ∃ inner s2 outer s3,
    trySafe fn s = (Normal inner, s2) ∧
    trySafe (trySafe fn) s = (Normal outer, s3) ∧
    is_Result (heap s3) inner = true ∧
    is_Ok (heap s3) outer = true ∧
    get_prop outer "value" s3 = (Normal inner, s3).
Proof.
  intros Hfn Hsync.
  assert (Hinner : ∃ props,
             trySafe fn s = (Normal (VRef (length (heap s1))),
                             State (heap s1 ++ [OPlain props]) (queue s1)) ∧
             is_Result (heap s1 ++ [OPlain props]) (VRef (length (heap s1))) = true).
  { destruct c as [v|e].
    - eexists. split; [apply (trySafe_value _ _ _ _ Hfn); by apply Hsync|].
      unfold is_Result, is_Ok. by rewrite lookup_fresh.
    - eexists. split; [by apply (trySafe_throw _ _ _ _ Hfn)|].
      unfold is_Result, is_Ok, is_Err. by rewrite lookup_fresh. }
  destruct Hinner as (props & Hret & Hres).
  eexists _, _, _, _. split; [exact Hret|].
  split.
  { apply (trySafe_value _ _ _ _ Hret). cbn [heap instanceof_Promise].
    by rewrite lookup_fresh. }
  cbn [heap]. split; [|split].
  - unfold is_Result, is_Ok, is_Err in *. rewrite lookup_fresh in Hres.
    by rewrite (lookup_old _ _ _ _ (lookup_fresh (heap s1) (OPlain props))).
  - unfold is_Ok. by rewrite lookup_fresh.
  - by rewrite get_prop_fresh.
Qed.

Lemma trySafe_nested_sync_witness :
  ∃ inner s2 outer s3,
    trySafe (throw (VString "boom")) (State [] []) = (Normal inner, s2) ∧
    trySafe (trySafe (throw (VString "boom"))) (State [] []) = (Normal outer, s3) ∧
    is_Err (heap s3) inner = true ∧
    is_Ok (heap s3) outer = true ∧
    get_prop outer "value" s3 = (Normal inner, s3).
Proof.
  destruct (trySafe_nested_sync (throw (VString "boom")) (State [] []) (State [] [])
              (Throw (VString "boom")) eq_refl)
    as (inner & s2 & outer & s3 & Hin & Hout & _ & Hok & Hval); [discriminate|].
  exists inner, s2, outer, s3. split; [done|]. split; [done|].
  split; [|by split].
  vm_compute in Hin. injection Hin as <- <-.
  vm_compute in Hout. injection Hout as <- <-. reflexivity.
Defined.

Lemma bind_Normal_inv {A B} (m : M A) (k : A → M B) (s s' : state) (b : B) :
  bind m k s = (Normal b, s') →
  ∃ a s0, m s = (Normal a, s0) ∧ k a s0 = (Normal b, s').
Proof.
  unfold bind. destruct (m s) as [[a|e] s0]; [eauto|discriminate].
Qed.

(** Building the chain is two [then] steps of the program. *)
Lemma chain_is_steps (hr : handler) (s1 s2 : state) (p : loc) (st : pstate) (d : val) :
  heap s1 !! p = Some (OPromise st) →
  (let! chained := promise_then (VRef p) (Some HWrapOk) None in
   promise_catch chained hr) s1 = (Normal d, s2) →
  rtc step s1 s2.
Proof.
  intros Hp Hchain.
  apply bind_Normal_inv in Hchain as (c & s1' & Hthen1 & Hthen2).
  pose proof Hthen1 as Hc. rewrite (promise_then_spec _ _ _ _ _ Hp) in Hc.
  injection Hc as <- _.
  eapply rtc_l; [by eapply step_then|].
  eapply rtc_l; [by eapply step_then|]. done.
Qed.

(** X14: wrapping an asynchronous [trySafe] in another [trySafe].  The outer
    promise is never rejected, and once the source has settled and the queue
    has drained it is fulfilled with a success record whose [value] is the
    inner outcome record, a success around the source's value or a failure
    around its reason: the outer call never reports a failure and flattens
    nothing. *)
Theorem trySafe_nested_async (fn : M val) (s s1 : state) (p : loc) :
  fn s = (Normal (VRef p), s1) →
  instanceof_Promise (heap s1) (VRef p) = true →
  wf_state s1 →
  ∃ p4 s4,
    trySafe (trySafe fn) s = (Normal (VRef p4), s4) ∧
    ∀ t, rtc step s4 t →
      let t' := drain (backlog t) t in
      (∀ r, promise_state t p4 ≠ Some (Rejected r)) ∧
      (∀ v, promise_state t p = Some (Fulfilled v) →
            ∃ l inner,
              promise_state t' p4 = Some (Fulfilled (VRef l)) ∧
              heap t' !! l = Some (OPlain [("ok", VBool true); ("value", VRef inner)]) ∧
              heap t' !! inner = Some (OPlain [("ok", VBool true); ("value", v)])) ∧
      (∀ r, promise_state t p = Some (Rejected r) →
            ∃ l inner,
              promise_state t' p4 = Some (Fulfilled (VRef l)) ∧
              heap t' !! l = Some (OPlain [("ok", VBool true); ("value", VRef inner)]) ∧
              heap t' !! inner = Some (OPlain [("ok", VBool false); ("error", r)])).
Proof.
  intros Hfn Hinst Hwf.
  destruct (instanceof_Promise_inv _ _ Hinst) as (p' & st & [= <-] & Hp).
  destruct (chain_established HWrapErr s1 p st ltac:(done) Hwf Hp)
    as (s2 & Hchain & Hc & Hp2 & _).
  pose proof (trySafe_promise _ _ _ _ _ _ Hfn Hinst Hchain) as Hinner.
  pose proof Hc as (Hwf2 & _).
  destruct (chain_established HWrapErr s2 _ _ ltac:(done) Hwf2 Hp2)
    as (s4 & Hchain' & Hc' & _).
  assert (Hinst2 : instanceof_Promise (heap s2) (VRef (S (length (heap s1)))) = true)
    by (cbn; by rewrite Hp2).
  pose proof (trySafe_promise _ _ _ _ _ _ Hinner Hinst2 Hchain') as Houter.
  pose proof (chain_is_steps _ _ _ _ _ _ Hp2 Hchain') as Hbuild.
  pose proof (chained_steps HWrapErr _ _ _ _ _ ltac:(done) Hbuild Hc) as Hc4.
  eexists _, s4. split; [exact Houter|].
  intros t Hsteps t'.
  pose proof (chained_steps HWrapErr _ _ _ _ _ ltac:(done) Hsteps Hc4) as Hct.
  pose proof (chained_steps HWrapErr _ _ _ _ _ ltac:(done) Hsteps Hc') as Hct'.
  destruct (chained_drain HWrapErr _ _ _ _ ltac:(done) Hct) as (Hq & Hcd & Hkeep).
  destruct (chained_drain HWrapErr _ _ _ _ ltac:(done) Hct') as (_ & Hcd' & _).
  fold t' in Hq, Hcd, Hcd', Hkeep.
  split; [|split].
  - intros r Hr%promise_state_Some. revert Hr.
    eapply (chained_never_rejected HWrapErr); eauto.
  - intros v Hv%promise_state_Some.
    assert (Hv' : heap t' !! p = Some (OPromise (Fulfilled v))) by (by apply Hkeep).
    destruct (chained_quiescent_fulfilled _ _ _ _ _ _ Hcd Hq Hv') as (inner & H2 & Hin).
    destruct (chained_quiescent_fulfilled _ _ _ _ _ _ Hcd' Hq H2) as (l & H4 & Hl).
    exists l, inner. split; [by apply promise_state_Some|done].
  - intros r Hr%promise_state_Some.
    assert (Hr' : heap t' !! p = Some (OPromise (Rejected r))) by (by apply Hkeep).
    destruct (chained_quiescent_rejected _ _ _ _ _ _ Hcd Hq Hr') as (st2 & H2 & Ho).
    inversion Ho as [| | |? inner Hin]; subst.
    destruct (chained_quiescent_fulfilled _ _ _ _ _ _ Hcd' Hq H2) as (l & H4 & Hl).
    exists l, inner. split; [by apply promise_state_Some|done].
Qed.

Lemma trySafe_nested_async_witness :
  let fn := alloc (OPromise (Rejected (VString "async boom"))) in
  let s1 := State [OPromise (Rejected (VString "async boom"))] [] in
  wf_state s1 ∧
  ∃ p4 s4,
    trySafe (trySafe fn) (State [] []) = (Normal (VRef p4), s4) ∧
    ∃ l inner,
      promise_state (drain (backlog s4) s4) p4 = Some (Fulfilled (VRef l)) ∧
      heap (drain (backlog s4) s4) !! l
        = Some (OPlain [("ok", VBool true); ("value", VRef inner)]) ∧
      heap (drain (backlog s4) s4) !! inner
        = Some (OPlain [("ok", VBool false); ("error", VString "async boom")]).
Proof.
  intros fn s1.
  assert (Hwf : wf_state s1) by (apply wf_state_single_promise; exact I).
  split; [exact Hwf|].
  destruct (trySafe_nested_async fn (State [] []) s1 0 eq_refl eq_refl Hwf)
    as (p4 & s4 & Hret & Hrun).
  exists p4, s4. split; [done|].
  destruct (Hrun s4 (rtc_refl _ _)) as (_ & _ & Hrej).
  apply Hrej. apply promise_state_Some.
  unfold trySafe in Hret. vm_compute in Hret. injection Hret as _ <-. reflexivity.
Defined.

(** * The type guards decide the variant *)

Lemma is_Ok_not_Err (h : list object) (r : val) : is_Ok h r = true → is_Err h r = false.
Proof.
  intros (l & props & v & -> & Hl & Hok & _)%is_Ok_inv.
  unfold is_Err. by rewrite Hl, Hok.
Qed.

(** X15: on a value of type [Result] the guards are sound and complete for
    the declared types: [isOk] answers [true] exactly on an [Ok] and [isErr]
    exactly on an [Err], never both; [unwrapOr] returns what [value] holds on
    an [Ok] and the default on an [Err]. *)
Theorem Result_guards_decide_variant (r d : val) (s : state) :
  is_Result (heap s) r = true →
  (Result.isOk r s = (Normal (VBool true), s) ↔ is_Ok (heap s) r = true) ∧
  (Result.isErr r s = (Normal (VBool true), s) ↔ is_Err (heap s) r = true) ∧
  (is_Ok (heap s) r = true → is_Err (heap s) r = false) ∧
  (is_Ok (heap s) r = true → Result.unwrapOr r d s = get_prop r "value" s) ∧
  (is_Err (heap s) r = true → Result.unwrapOr r d s = (Normal d, s)).
Proof.
  intros Hr. unfold is_Result in Hr. apply orb_true_iff in Hr as [Hr|Hr].
  - pose proof (is_Ok_not_Err _ _ Hr) as Hne.
    pose proof Hr as (l & props & v & -> & Hl & Hok & Hv)%is_Ok_inv.
    assert (H1 : Result.isOk (VRef l) s = (Normal (VBool true), s)).
    { unfold Result.isOk. by rewrite (get_prop_plain _ _ _ _ Hl), Hok. }
    assert (H2 : Result.isErr (VRef l) s = (Normal (VBool false), s)).
    { unfold Result.isErr.
      by rewrite (bind_Normal _ _ _ _ _ (get_prop_plain _ _ _ _ Hl)), Hok. }
    assert (H3 : Result.unwrapOr (VRef l) d s = get_prop (VRef l) "value" s).
    { unfold Result.unwrapOr.
      by rewrite (bind_Normal _ _ _ _ _ (get_prop_plain _ _ _ _ Hl)), Hok. }
    rewrite H1, H2, H3, Hr, Hne.
    split; [done|]. split; [split; discriminate|].
    split; [done|]. split; [done|discriminate].
  - pose proof Hr as (l & props & e & -> & Hl & Hok & He)%is_Err_inv.
    assert (Hne : is_Ok (heap s) (VRef l) = false).
    { unfold is_Ok. by rewrite Hl, Hok. }
    assert (H1 : Result.isOk (VRef l) s = (Normal (VBool false), s)).
    { unfold Result.isOk. by rewrite (get_prop_plain _ _ _ _ Hl), Hok. }
    assert (H2 : Result.isErr (VRef l) s = (Normal (VBool true), s)).
    { unfold Result.isErr.
      by rewrite (bind_Normal _ _ _ _ _ (get_prop_plain _ _ _ _ Hl)), Hok. }
    assert (H3 : Result.unwrapOr (VRef l) d s = (Normal d, s)).
    { unfold Result.unwrapOr.
      by rewrite (bind_Normal _ _ _ _ _ (get_prop_plain _ _ _ _ Hl)), Hok. }
    rewrite H1, H2, H3, Hr, Hne.
    split; [split; discriminate|]. split; [done|].
    split; [discriminate|]. split; [discriminate|done].
Qed.

Lemma Result_guards_decide_variant_witness :
  let s := State [OPlain [("ok", VBool false); ("error", VString "NO_HIT");
                          ("value", VNumber 1)]] [] in
  is_Result (heap s) (VRef 0) = true ∧
  (Result.isErr (VRef 0) s = (Normal (VBool true), s) ↔ is_Err (heap s) (VRef 0) = true) ∧
  Result.unwrapOr (VRef 0) (VNumber 750) s = (Normal (VNumber 750), s).
Proof.
  intros s.
  destruct (Result_guards_decide_variant (VRef 0) (VNumber 750) s eq_refl)
    as (_ & Herr & _ & _ & Hun).
  split; [reflexivity|]. split; [exact Herr|]. by apply Hun.
Defined.
